(** * Session search index of raycast-opencode

    A shallow embedding of [src/hooks/useSessionSearch.ts]: the content
    extractor, the persistent cache, the change detector, the batch indexer,
    pruning, and the search effect of the [useSessionSearch] hook.

    Modelling choices.
    - Timestamps ([time.updated], a JS number holding epoch milliseconds) are
      integers [Z]; a template literal of such a number is its decimal
      rendering.
    - A JS [Map<string, V>] is an association list in insertion order with
      pairwise distinct keys ([JSMap]): [Array.from(m.values())] and
      [for .. of m.keys()] observe that order.
    - The FlexSearch [Index] is an external library.  It is modelled by the
      part of its interface the hook uses: documents registered under an id
      ([add], which updates when the id is already registered, [remove]) and
      [search], whose matching policy is a parameter.  The model keeps, for
      each id, the last text handed to [add] and not removed since.  The
      library itself keeps an entry only for a text in which its encoder
      finds a token (a text such as [" "] leaves none); that decision is a
      parameter as well ([FlexSearch.holds]), and the ids of the model are an
      upper bound of the ids the library holds.
    - [LocalStorage] holds, under the cache key, nothing, a string that
      [JSON.parse] rejects, or the JSON text of a [CachedIndex]; the JSON text
      layer of the runtime is taken to be lossless on records made of strings
      and integer numbers.
    - Effects are explicit: the hook's refs and state are a record that is
      passed along, and observable actions (message fetches, progress
      reports, pauses, index lookups) are collected in an event log.
    - The fetches of one batch settle in an order the code does not control
      ([Promise.all]); that order, the answers of the remote service and the
      success of the storage write form the environment [Env] of a cycle. *)

From Stdlib Require Import List String Ascii ZArith PeanoNat Lia Bool.
From Stdlib Require Import Sorted Permutation DecimalString DecimalZ.
Import ListNotations.

Local Open Scope string_scope.
Local Open Scope list_scope.

(** ** JavaScript primitives used by the module *)

Module JS.

(** Truthiness of a string: only the empty string is falsy. *)
Definition truthy (s : string) : bool := negb (String.eqb s "").

(** [a || b] on strings. *)
Definition or_else (a b : string) : string := if truthy a then a else b.

(** [`${n}`] for an integer number. *)
Definition number_to_string (n : Z) : string :=
  NilZero.string_of_int (Z.to_int n).

(** White space and line terminators removed by [String.prototype.trim]
    (code units below 256). *)
Definition is_white_space (c : ascii) : bool :=
  let n := nat_of_ascii c in
  (n =? 9)%nat || (n =? 10)%nat || (n =? 11)%nat || (n =? 12)%nat
  || (n =? 13)%nat || (n =? 32)%nat || (n =? 160)%nat.

Fixpoint trimStart (s : string) : string :=
  match s with
  | EmptyString => EmptyString
  | String c s' => if is_white_space c then trimStart s' else s
  end.

Definition reverse (s : string) : string :=
  string_of_list_ascii (rev (list_ascii_of_string s)).

Definition trimEnd (s : string) : string := reverse (trimStart (reverse s)).

Definition trim (s : string) : string := trimEnd (trimStart s).

(** [Array.prototype.join]. *)
Fixpoint join (sep : string) (l : list string) : string :=
  match l with
  | [] => ""
  | [x] => x
  | x :: rest => (x ++ sep ++ join sep rest)%string
  end.

(** [a.slice(-n)]: the last [n] elements, all of them when fewer. *)
Definition slice_last {A} (n : nat) (a : list A) : list A :=
  skipn (List.length a - n) a.

(** [a.slice(start, end)] for non-negative bounds; empty when
    [end <= start] or [start] is past the end. *)
Definition slice {A} (start end_ : nat) (a : list A) : list A :=
  firstn (end_ - start) (skipn start a).

(** [Math.ceil(n / d)] on non-negative integers. *)
Definition ceil_div (n d : nat) : nat := (n + (d - 1)) / d.

(** [Math.round(num / den)], rounding half up, for a positive [den]. *)
Definition round_div (num den : Z) : Z := ((2 * num + den) / (2 * den))%Z.

End JS.

(** ** Data model *)

Module Session.
Record t := mk {
  id : string;
  projectID : string;
  directory : string;
  title : string;
  version : string;
  created : Z;
  updated : Z;          (* time.updated *)
  share : option string
}.
End Session.

Module MessagePart.
Record t := mk {
  type : string;
  text : option string   (* text?: string *)
}.
End MessagePart.

Module Message.
Record t := mk {
  info_id : string;
  info_sessionID : string;
  info_role : string;
  parts : list MessagePart.t
}.
End Message.

Module IndexedSession.
Record t := mk {
  id : string;
  title : string;
  directory : string;
  content : string;
  updated : Z
}.

End IndexedSession.

(** ** [Map<string, V>] in insertion order *)

Module JSMap.
Section Ops.
Context {V : Type}.

Definition t := list (string * V).

Definition empty : t := [].

Fixpoint get (k : string) (m : t) : option V :=
  match m with
  | [] => None
  | (k', v) :: m' => if String.eqb k' k then Some v else get k m'
  end.

Definition has (k : string) (m : t) : bool :=
  match get k m with Some _ => true | None => false end.

(** [m.set(k, v)]: an existing key keeps its position, a new key goes
    last. *)
Fixpoint set (k : string) (v : V) (m : t) : t :=
  match m with
  | [] => [(k, v)]
  | (k', v') :: m' =>
      if String.eqb k' k then (k, v) :: m' else (k', v') :: set k v m'
  end.

Fixpoint delete (k : string) (m : t) : t :=
  match m with
  | [] => []
  | (k', v') :: m' =>
      if String.eqb k' k then delete k m' else (k', v') :: delete k m'
  end.

Definition keys (m : t) : list string := map fst m.
Definition values (m : t) : list V := map snd m.

(** Representation invariant of a [Map]: keys are pairwise distinct. *)
Definition wf (m : t) : Prop := NoDup (keys m).
End Ops.
Arguments t V : clear implicits.
End JSMap.

(** ** The FlexSearch index, by its interface *)

Module FlexSearch.

(** Registered documents: id and indexed text, the last one handed to [add]
    under that id and not removed since. *)
Definition Index := list (string * string).

Definition create : Index := [].

Definition contain (id : string) (idx : Index) : bool :=
  existsb (fun e => String.eqb (fst e) id) idx.

Definition remove (id : string) (idx : Index) : Index :=
  filter (fun e => negb (String.eqb (fst e) id)) idx.

(** [index.add(id, text)]; on a registered id it is an update.  The entry
    records the text handed over; what the library keeps of it is told by
    [holds] below. *)
Definition add (id text : string) (idx : Index) : Index :=
  remove id idx ++ [(id, text)].

Definition text_of (id : string) (idx : Index) : option string :=
  option_map snd (find (fun e => String.eqb (fst e) id) idx).

Definition ids (idx : Index) : list string := map fst idx.

(** [index.contain(id)] as the library answers it.  The library encodes the
    text handed to [add] and keeps an entry only when the encoding yields a
    token: after [add(id, " ")] it holds nothing under [id], also when [id]
    was registered before, since the update removes the old entry first.
    [keeps id text] stands for that decision of the library.  [contain] and
    [ids] above tell which documents were handed over; they bound from above
    what the library holds. *)
Definition holds (keeps : string -> string -> bool)
           (id : string) (idx : Index) : bool :=
  match text_of id idx with
  | Some text => keeps id text
  | None => false
  end.

(** [index.search(query, { limit })]; [matches query text] is the
    library's matching policy. *)
Definition search (matches : string -> string -> bool)
           (query : string) (limit : nat) (idx : Index) : list string :=
  firstn limit (map fst (filter (fun e => matches query (snd e)) idx)).

End FlexSearch.

(** ** Persistent cache *)

Record CachedIndex := mkCachedIndex {
  version : Z;
  sessionHashes : list (string * string);
  indexedSessions : list IndexedSession.t
}.

(** What [LocalStorage] holds under the cache key, when it holds
    something. *)
Inductive StoredItem :=
| Unparseable                     (* empty, or rejected by JSON.parse *)
| StoredJson (c : CachedIndex).   (* JSON.stringify of a CachedIndex *)

Definition CACHE_VERSION : Z := 1.
Definition MESSAGES_PER_SESSION : nat := 10.

(** ** Observable actions *)

Inductive event :=
| EvGetSessionMessages (sessionId : string) (limit : nat)
| EvSetIndexProgress (percent : Z)
| EvPause (ms : nat)
| EvStorageSet
| EvIndexSearch (query : string) (limit : nat).

(** ** Module-level functions *)

Definition hashSession (session : Session.t) : string :=
  JS.number_to_string (Session.updated session).

Definition is_text_part (part : MessagePart.t) : bool :=
  String.eqb (MessagePart.type part) "text"
  && match MessagePart.text part with
     | Some s => JS.truthy s
     | None => false
     end.

Definition part_text (part : MessagePart.t) : string :=
  match MessagePart.text part with Some s => s | None => "" end.

Definition extractTextFromMessages (messages : list Message.t) : string :=
  let recentMessages := JS.slice_last MESSAGES_PER_SESSION messages in
  JS.join " "
    (flat_map
       (fun msg => map part_text (filter is_text_part (Message.parts msg)))
       recentMessages).

(** The text registered for a record, as [loadCachedIndex] and the success
    path of [indexSessionBatch] build it. *)
Definition full_text (r : IndexedSession.t) : string :=
  (IndexedSession.title r ++ " " ++ IndexedSession.directory r ++ " "
   ++ IndexedSession.content r)%string.

(** The text registered on the failure path. *)
Definition degraded_text (r : IndexedSession.t) : string :=
  (IndexedSession.title r ++ " " ++ IndexedSession.directory r)%string.

(** The two in-memory structures the functions mutate. *)
Record Mem := mkMem {
  index : FlexSearch.Index;
  indexedData : JSMap.t IndexedSession.t
}.

Definition load_item (mem : Mem) (item : IndexedSession.t) : Mem :=
  {| indexedData := JSMap.set (IndexedSession.id item) item (indexedData mem);
     index := FlexSearch.add (IndexedSession.id item) (full_text item)
                (index mem) |}.

Definition loadCachedIndex (storage : option StoredItem) (mem : Mem) : Mem :=
  match storage with
  | None => mem
  | Some Unparseable => mem
  | Some (StoredJson cached) =>
      if negb (Z.eqb (version cached) CACHE_VERSION) then mem
      else fold_left load_item (indexedSessions cached) mem
  end.

(** [obj[k] = v] on a plain object used as a dictionary. *)
Definition object_set (k v : string) (o : list (string * string)) :=
  JSMap.set k v o.

Definition build_cache (indexedData : JSMap.t IndexedSession.t) : CachedIndex :=
  {| version := CACHE_VERSION;
     sessionHashes :=
       fold_left
         (fun o e => object_set (fst e)
                       (JS.number_to_string (IndexedSession.updated (snd e))) o)
         indexedData [];
     indexedSessions := JSMap.values indexedData |}.

(** [saveCachedIndex]: a failing [setItem] is swallowed and leaves the
    stored value as it was. *)
Definition saveCachedIndex (setItem_ok : bool)
           (indexedData : JSMap.t IndexedSession.t)
           (storage : option StoredItem) : option StoredItem :=
  if setItem_ok then Some (StoredJson (build_cache indexedData)) else storage.

Definition needs_index (indexedData : JSMap.t IndexedSession.t)
           (session : Session.t) : bool :=
  match JSMap.get (Session.id session) indexedData with
  | None => true
  | Some cached =>
      negb (String.eqb (hashSession session)
              (JS.number_to_string (IndexedSession.updated cached)))
  end.

Definition findSessionsNeedingIndex (sessions : list Session.t)
           (indexedData : JSMap.t IndexedSession.t) : list Session.t :=
  filter (needs_index indexedData) sessions.

(** The remote client: [getSessionMessages id limit], [None] when the
    request fails. *)
Definition Client := string -> nat -> option (list Message.t).

Definition make_indexed (session : Session.t) (content : string)
  : IndexedSession.t :=
  {| IndexedSession.id := Session.id session;
     IndexedSession.title := JS.or_else (Session.title session) "";
     IndexedSession.directory := JS.or_else (Session.directory session) "";
     IndexedSession.content := content;
     IndexedSession.updated := Session.updated session |}.

(** The continuation of one session's fetch inside [indexSessionBatch]. *)
Definition indexSession (client : Client) (mem : Mem) (session : Session.t)
  : Mem :=
  let sid := Session.id session in
  match client sid (MESSAGES_PER_SESSION * 2) with
  | Some messages =>
      let content := extractTextFromMessages messages in
      let indexed := make_indexed session content in
      let index1 :=
        if JSMap.has sid (indexedData mem)
        then FlexSearch.remove sid (index mem) else index mem in
      {| index := FlexSearch.add sid (full_text indexed) index1;
         indexedData := JSMap.set sid indexed (indexedData mem) |}
  | None =>
      let indexed := make_indexed session "" in
      if negb (JSMap.has sid (indexedData mem))
      then {| index := FlexSearch.add sid (degraded_text indexed) (index mem);
              indexedData := JSMap.set sid indexed (indexedData mem) |}
      else mem
  end.

(** [indexSessionBatch]: every fetch is issued, in batch order; the
    continuations then run one at a time in the order [completion] in which
    the fetches settle. *)
Definition indexSessionBatch (completion : list Session.t -> list Session.t)
           (batch : list Session.t) (client : Client) (mem : Mem)
  : Mem * list event :=
  (fold_left (indexSession client) (completion batch) mem,
   map (fun s => EvGetSessionMessages (Session.id s) (MESSAGES_PER_SESSION * 2))
       batch).

Definition prune_step (sessionIds : list string) (mem : Mem) (id : string)
  : Mem :=
  if negb (existsb (String.eqb id) sessionIds)
  then {| index := FlexSearch.remove id (index mem);
          indexedData := JSMap.delete id (indexedData mem) |}
  else mem.

Definition pruneDeletedSessions (sessions : list Session.t) (mem : Mem) : Mem :=
  let sessionIds := map Session.id sessions in
  fold_left (prune_step sessionIds) (JSMap.keys (indexedData mem)) mem.

(** ** The hook *)

(** [[...sessions].sort((a, b) => b.time.updated - a.time.updated)]: a
    stable sort, most recently updated first. *)
Fixpoint insert_desc (s : Session.t) (l : list Session.t) : list Session.t :=
  match l with
  | [] => [s]
  | x :: l' =>
      if (Session.updated x >? Session.updated s)%Z
      then x :: insert_desc s l' else s :: l
  end.

Definition sort_desc (l : list Session.t) : list Session.t :=
  fold_right insert_desc [] l.

(** What a refresh cycle does not control. *)
Record Env := mkEnv {
  getClient : option Client;      (* [None]: the server cannot be reached *)
  completion : list Session.t -> list Session.t;
                                  (* order in which a batch's fetches settle *)
  setItem_ok : bool               (* whether [LocalStorage.setItem] succeeds *)
}.

(** Refs and state of one mounted hook, and the stored cache. *)
Record Hook := mkHook {
  indexRef : FlexSearch.Index;
  indexedDataRef : JSMap.t IndexedSession.t;
  isIndexingRef : bool;
  isIndexing : bool;
  indexProgress : Z;
  localStorage : option StoredItem
}.

Definition mem_of (h : Hook) : Mem :=
  {| index := indexRef h; indexedData := indexedDataRef h |}.

Definition batch_of (batchSize batchIndex : nat) (sessionsToIndex : list Session.t)
  : list Session.t :=
  let start := batchIndex * batchSize in
  let end_ := Nat.min (start + batchSize) (List.length sessionsToIndex) in
  JS.slice start end_ sessionsToIndex.

Definition progress_after (batchIndex : nat) : Z :=
  JS.round_div ((Z.of_nat batchIndex + 1) * 100) 4.

(** The [for (let batchIndex = 0; batchIndex < 4; batchIndex++)] loop, by
    the number of iterations left.  It returns the memory, the last progress
    value set and the events. *)
Fixpoint batch_loop (left batchIndex batchSize : nat)
         (sessionsToIndex : list Session.t) (env : Env) (client : Client)
         (mem : Mem) (progress : Z) : Mem * Z * list event :=
  match left with
  | O => (mem, progress, [])
  | S left' =>
      let batch := batch_of batchSize batchIndex sessionsToIndex in
      if (List.length batch =? 0)%nat then (mem, progress, [])
      else
        let '(mem1, ev1) :=
          indexSessionBatch (completion env) batch client mem in
        let p := progress_after batchIndex in
        let ev2 :=
          EvSetIndexProgress p
          :: (if (batchIndex <? 3)%nat then [EvPause 50] else []) in
        let '(mem2, p2, ev3) :=
          batch_loop left' (S batchIndex) batchSize sessionsToIndex env client
            mem1 p in
        (mem2, p2, ev1 ++ ev2 ++ ev3)
  end.

Definition buildIndex (env : Env) (sessions : list Session.t) (h : Hook)
  : Hook * list event :=
  let mem0 := loadCachedIndex (localStorage h) (mem_of h) in
  let sortedSessions := sort_desc sessions in
  let sessionsToIndex :=
    findSessionsNeedingIndex sortedSessions (indexedData mem0) in
  if (List.length sessionsToIndex =? 0)%nat then
    ({| indexRef := index mem0; indexedDataRef := indexedData mem0;
        isIndexingRef := false; isIndexing := false;
        indexProgress := 100; localStorage := localStorage h |},
     [EvSetIndexProgress 100])
  else
    let batchSize :=
      Nat.max 1 (JS.ceil_div (List.length sessionsToIndex) 4) in
    match getClient env with
    | None =>
        (* the rejection propagates out of buildIndex: both flags stay set *)
        ({| indexRef := index mem0; indexedDataRef := indexedData mem0;
            isIndexingRef := true; isIndexing := true;
            indexProgress := indexProgress h;
            localStorage := localStorage h |}, [])
    | Some client =>
        let '(mem1, p, evs) :=
          batch_loop 4 0 batchSize sessionsToIndex env client mem0
            (indexProgress h) in
        let mem2 := pruneDeletedSessions sessions mem1 in
        ({| indexRef := index mem2; indexedDataRef := indexedData mem2;
            isIndexingRef := false; isIndexing := false;
            indexProgress := p;
            localStorage :=
              saveCachedIndex (setItem_ok env) (indexedData mem2)
                (localStorage h) |},
         evs ++ [EvStorageSet])
    end.

(** The effect on [sessions]: one refresh cycle, unless the list is empty or
    a cycle is in flight. *)
Definition refreshEffect (env : Env) (sessions : list Session.t) (h : Hook)
  : Hook * list event :=
  if (List.length sessions =? 0)%nat then (h, [])
  else if isIndexingRef h then (h, [])
  else buildIndex env sessions h.

(** The effect on [searchText] and [sessions]: the value given to
    [setFilteredSessions]. *)
Definition searchEffect (matches : string -> string -> bool)
           (searchText : string) (sessions : list Session.t)
           (index : option FlexSearch.Index) : list Session.t * list event :=
  if negb (JS.truthy (JS.trim searchText)) then (sessions, [])
  else
    match index with
    | None => (sessions, [])
    | Some index =>
        let results := FlexSearch.search matches searchText 100 index in
        let matched :=
          filter (fun s => existsb (String.eqb (Session.id s)) results)
            sessions in
        (sort_desc matched, [EvIndexSearch searchText 100])
    end.

Definition clearCache (h : Hook) : Hook :=
  {| indexRef := FlexSearch.create; indexedDataRef := JSMap.empty;
     isIndexingRef := isIndexingRef h; isIndexing := isIndexing h;
     indexProgress := 0; localStorage := None |}.

(** Several cycles in a row, each with its environment and session list. *)
Fixpoint run_cycles (cycles : list (Env * list Session.t)) (h : Hook)
  : Hook * list event :=
  match cycles with
  | [] => (h, [])
  | (env, sessions) :: rest =>
      let '(h1, ev1) := refreshEffect env sessions h in
      let '(h2, ev2) := run_cycles rest h1 in
      (h2, ev1 ++ ev2)
  end.

Definition progress_values (log : list event) : list Z :=
  flat_map (fun e => match e with EvSetIndexProgress p => [p] | _ => [] end)
    log.

Definition fetched_ids (log : list event) : list string :=
  flat_map
    (fun e => match e with EvGetSessionMessages i _ => [i] | _ => [] end) log.

(** * The invariant between the index and the record map *)

(** Entries of the record map whose record carries a given id. *)
Definition records_with_id (i : string) (m : JSMap.t IndexedSession.t)
  : list (string * IndexedSession.t) :=
  filter (fun e => String.eqb (IndexedSession.id (snd e)) i) m.

(** Every record is stored under its own id, and keys are distinct. *)
Definition Keyed (m : JSMap.t IndexedSession.t) : Prop :=
  JSMap.wf m /\ forall e, In e m -> IndexedSession.id (snd e) = fst e.

(** The index registers exactly the ids of the record map, each once. *)
Definition Consistent (mem : Mem) : Prop :=
  Keyed (indexedData mem)
  /\ NoDup (FlexSearch.ids (index mem))
  /\ forall i, In i (FlexSearch.ids (index mem))
               <-> In i (JSMap.keys (indexedData mem)).

(** The invariant as the data model words it: an id registered in the index
    has exactly one record with that id in the record map. *)
Definition IndexInvariant (mem : Mem) : Prop :=
  forall i, In i (FlexSearch.ids (index mem)) ->
            exists r, records_with_id i (indexedData mem) = [(i, r)].

(** ** Concrete values used in examples *)

Module Ex.
Definition session (i t : string) (u : Z) : Session.t :=
  Session.mk i "proj" "/work" t "1" 0 u None.

Definition a100 := session "a" "Fix bug" 100.
Definition a150 := session "a" "Fix bug again" 150.
Definition b200 := session "b" "Add feature" 200.

Definition text_part (s : string) : MessagePart.t :=
  MessagePart.mk "text" (Some s).
Definition tool_part : MessagePart.t := MessagePart.mk "tool" None.
Definition message (ps : list MessagePart.t) : Message.t :=
  Message.mk "m" "s" "user" ps.

Definition record (i t c : string) (u : Z) : IndexedSession.t :=
  IndexedSession.mk i t "/work" c u.

Definition rec_a := record "a" "Fix bug" "null pointer exception" 100.
Definition rec_x := record "x" "Gone" "old text" 7.

Definition client_ok : Client :=
  fun _ _ => Some [message [text_part "null pointer exception"]].
Definition client_down : Client := fun _ _ => None.

Definition in_order (l : list Session.t) : list Session.t := l.

Definition env_ok : Env := mkEnv (Some client_ok) in_order true.
Definition env_down : Env := mkEnv (Some client_down) in_order true.

Definition fresh : Hook := mkHook FlexSearch.create JSMap.empty false false 0 None.

(** A hook that holds records for [a] (up to date at 100) and for [x]. *)
Definition warm : Hook :=
  mkHook [("a", full_text rec_a); ("x", full_text rec_x)]
         [("a", rec_a); ("x", rec_x)] false false 100
         (Some (StoredJson (build_cache [("a", rec_a); ("x", rec_x)]))).

Definition always (_ _ : string) : bool := true.

(** A session without title and directory, and a library that keeps a text
    only if it has a character other than a space. *)
Definition e100 : Session.t := Session.mk "e" "proj" "" "" "1" 0 100 None.

Definition has_token (_ text : string) : bool :=
  existsb (fun c => negb (Ascii.eqb c " ")) (list_ascii_of_string text).
End Ex.

(** ** The content extractor as the specification words it *)

(** A segment is textual when its type is text. *)
Definition is_textual_segment (part : MessagePart.t) : bool :=
  String.eqb (MessagePart.type part) "text".

(** The text of every textual segment of the last [W] messages, in order,
    joined by single spaces. *)
Definition spec_extract (W : nat) (messages : list Message.t) : string :=
  JS.join " "
    (flat_map
       (fun msg => map part_text (filter is_textual_segment (Message.parts msg)))
       (JS.slice_last W messages)).

(** A textual segment whose text is missing or empty. *)
Definition is_empty_text_segment (part : MessagePart.t) : bool :=
  is_textual_segment part && negb (is_text_part part).

Definition without_empty_text_segments (msg : Message.t) : Message.t :=
  {| Message.info_id := Message.info_id msg;
     Message.info_sessionID := Message.info_sessionID msg;
     Message.info_role := Message.info_role msg;
     Message.parts :=
       filter (fun p => negb (is_empty_text_segment p)) (Message.parts msg) |}.

Definition without_non_text_segments (msg : Message.t) : Message.t :=
  {| Message.info_id := Message.info_id msg;
     Message.info_sessionID := Message.info_sessionID msg;
     Message.info_role := Message.info_role msg;
     Message.parts := filter is_textual_segment (Message.parts msg) |}.

(** ** Orderings on sessions *)

(** [a] may stand before [b] in a list ordered by [updated], most recent
    first. *)
Definition updated_desc (a b : Session.t) : Prop :=
  (Session.updated b <= Session.updated a)%Z.

Definition Sorted_desc (l : list Session.t) : Prop :=
  StronglySorted updated_desc l.

(** A query that is empty or made of white space only. *)
Definition blank (searchText : string) : bool :=
  forallb JS.is_white_space (list_ascii_of_string searchText).

(** ** The batch loop, unrolled *)

(** The settle order of a batch is some rearrangement of the batch. *)
Definition fair (env : Env) : Prop :=
  forall batch, Permutation batch (completion env batch).

(** The four slices the loop looks at. *)
Definition chunks (batchSize : nat) (sessionsToIndex : list Session.t)
  : list (list Session.t) :=
  map (fun i => batch_of batchSize i sessionsToIndex) (seq 0 4).

Definition fetch_events (batch : list Session.t) : list event :=
  map (fun s => EvGetSessionMessages (Session.id s) (MESSAGES_PER_SESSION * 2))
    batch.

(** What one iteration on a batch adds to the log. *)
Definition chunk_events (batchIndex : nat) (batch : list Session.t)
  : list event :=
  if (List.length batch =? 0)%nat then []
  else fetch_events batch
       ++ EvSetIndexProgress (progress_after batchIndex)
       :: (if (batchIndex <? 3)%nat then [EvPause 50] else []).

(** The batch size [buildIndex] computes. *)
Definition batch_size (n : nat) : nat := Nat.max 1 (JS.ceil_div n 4).

(** The sessions of a cycle in the order their fetches settle, slice after
    slice. *)
Definition processed (env : Env) (sessionsToIndex : list Session.t)
  : list Session.t :=
  flat_map (completion env)
    (chunks (batch_size (List.length sessionsToIndex)) sessionsToIndex).

(** The events of the four iterations. *)
Definition cycle_events (sessionsToIndex : list Session.t) : list event :=
  flat_map
    (fun i =>
       chunk_events i
         (batch_of (batch_size (List.length sessionsToIndex)) i sessionsToIndex))
    (seq 0 4).

(** The sessions a cycle on [sessions] finds in need of indexing, after the
    cache has been loaded. *)
Definition loaded (h : Hook) : Mem :=
  loadCachedIndex (localStorage h) (mem_of h).

Definition to_index (sessions : list Session.t) (h : Hook) : list Session.t :=
  findSessionsNeedingIndex (sort_desc sessions) (indexedData (loaded h)).

(** ** What indexing one session does to the entry of its id *)

Definition limit : nat := MESSAGES_PER_SESSION * 2.

(** The record found under the session's id afterwards, from the record
    found there before. *)
Definition record_after (client : Client) (session : Session.t)
           (before : option IndexedSession.t) : option IndexedSession.t :=
  match client (Session.id session) limit with
  | Some messages =>
      Some (make_indexed session (extractTextFromMessages messages))
  | None =>
      match before with
      | Some r => Some r
      | None => Some (make_indexed session "")
      end
  end.

(** The text registered under the session's id afterwards. *)
Definition text_after (client : Client) (session : Session.t)
           (before : option IndexedSession.t) (text_before : option string)
  : option string :=
  match client (Session.id session) limit with
  | Some messages =>
      Some (full_text
              (make_indexed session (extractTextFromMessages messages)))
  | None =>
      match before with
      | Some _ => text_before
      | None => Some (degraded_text (make_indexed session ""))
      end
  end.

(** ** Vocabulary for reasoning about several cycles *)

Definition has_id (k : string) (s : Session.t) : bool :=
  String.eqb (Session.id s) k.

Definition item_has_id (k : string) (item : IndexedSession.t) : bool :=
  String.eqb (IndexedSession.id item) k.




(** ** Further vocabulary for the hook *)

(** A stored value that [loadCachedIndex] gives up on: nothing stored, text
    that does not parse, or a snapshot of another version. *)
Definition unusable (storage : option StoredItem) : Prop :=
  match storage with
  | None => True
  | Some Unparseable => True
  | Some (StoredJson c) => version c <> CACHE_VERSION
  end.

Definition pauses (log : list event) : list nat :=
  flat_map (fun e => match e with EvPause ms => [ms] | _ => [] end) log.

Definition has_updated (u : Z) (s : Session.t) : bool :=
  Z.eqb (Session.updated s) u.

(** Whether a key is the id of a listed session. *)
Definition listed (sessions : list Session.t) (k : string) : bool :=
  existsb (String.eqb k) (map Session.id sessions).

(** Whether an entry under key [k] is kept when the keys [L] are pruned
    against the listed ids [ids]. *)
Definition survives (ids L : list string) (k : string) : bool :=
  negb (existsb (String.eqb k) L && negb (existsb (String.eqb k) ids)).

(** ** The sessions command ([src/sessions.tsx]) *)

Module SessionsCommand.

Inductive Toast :=
| Success (title : string)
| Failure (title message : string).

Record State := mk {
  sessions : list Session.t;
  isLoading : bool
}.

(** [useState<Session[]>([])] and [useState(true)]. *)
Definition initial : State := mk [] true.

(** [loadSessions]; [listSessions] is the outcome of [getClient] followed by
    [client.listSessions()]: the list, or the message of the error thrown. *)
Definition loadSessions (listSessions : string + list Session.t) (st : State)
  : State * option Toast :=
  match listSessions with
  | inr sessionList => (mk (sort_desc sessionList) false, None)
  | inl message => (mk (sessions st) false,
                    Some (Failure "Failed to load sessions" message))
  end.

(** [handleDelete]; [confirmed] is the answer to the alert, [deleteSession]
    the error thrown by [getClient] or [client.deleteSession], if any. *)
Definition handleDelete (confirmed : bool) (deleteSession : option string)
           (session : Session.t) (st : State) : State * option Toast :=
  if negb confirmed then (st, None)
  else
    match deleteSession with
    | None =>
        (mk (filter (fun s => negb (String.eqb (Session.id s) (Session.id session)))
               (sessions st))
            (isLoading st),
         Some (Success "Session deleted"))
    | Some message => (st, Some (Failure "Failed to delete session" message))
    end.

Inductive Action :=
| Load (listSessions : string + list Session.t)
| Delete (confirmed : bool) (deleteSession : option string)
         (session : Session.t).

Definition step (st : State) (a : Action) : State :=
  match a with
  | Load r => fst (loadSessions r st)
  | Delete c d s => fst (handleDelete c d s st)
  end.

Definition run (actions : list Action) : State := fold_left step actions initial.

(** [formatDate], with the current time and the locale rendering as
    parameters. *)
Definition formatDate (toLocaleDateString : Z -> string) (now timestamp : Z)
  : string :=
  let diffMs := (now - timestamp)%Z in
  let diffMins := (diffMs / 60000)%Z in
  let diffHours := (diffMs / 3600000)%Z in
  let diffDays := (diffMs / 86400000)%Z in
  if (diffMins <? 1)%Z then "Just now"
  else if (diffMins <? 60)%Z then (JS.number_to_string diffMins ++ "m ago")%string
  else if (diffHours <? 24)%Z then (JS.number_to_string diffHours ++ "h ago")%string
  else if (diffDays <? 7)%Z then (JS.number_to_string diffDays ++ "d ago")%string
  else toLocaleDateString timestamp.

End SessionsCommand.

(** ** Recent projects ([src/hooks/useProjects.ts]) *)

Module Projects.

Record Project := mkProject {
  path : string;
  name : string;
  lastUsed : Z
}.

Definition MAX_PROJECTS : nat := 20.

(** [s.split(sep)] for a separator of one character. *)
Fixpoint split (sep : ascii) (s : string) : list string :=
  match s with
  | EmptyString => [EmptyString]
  | String c s' =>
      if Ascii.eqb c sep then EmptyString :: split sep s'
      else match split sep s' with
           | part :: parts => String c part :: parts
           | [] => [String c EmptyString]
           end
  end.

Definition slash : ascii := ascii_of_nat 47.

Definition getProjectName (path : string) : string :=
  let parts := split slash path in
  JS.or_else (nth (List.length parts - 1) parts EmptyString) path.

(** What [LocalStorage] holds under the projects key, when it holds
    something. *)
Inductive Stored :=
| Empty                          (* the empty string *)
| Invalid                        (* text that JSON.parse rejects *)
| Json (ps : list Project).

Record State := mkState {
  projects : list Project;
  isLoading : bool;
  stored : option Stored
}.

Definition initial (stored : option Stored) : State := mkState [] true stored.

Definition loadProjects (st : State) : State :=
  match stored st with
  | None | Some Empty => mkState (projects st) false (stored st)
  | Some Invalid => mkState [] false (stored st)
  | Some (Json parsed) => mkState parsed false (stored st)
  end.

(** [saveProjects]: the state is set first; a failing [setItem] leaves the
    stored value as it was. *)
Definition saveProjects (setItem_ok : bool) (newProjects : list Project)
           (st : State) : State :=
  mkState newProjects (isLoading st)
          (if setItem_ok then Some (Json newProjects) else stored st).

Definition other_path (p : string) (q : Project) : bool :=
  negb (String.eqb (path q) p).

Definition addProject (p : string) (now : Z) (setItem_ok : bool) (st : State)
  : State :=
  let existing := filter (other_path p) (projects st) in
  let newProject := mkProject p (getProjectName p) now in
  let updated := JS.slice 0 MAX_PROJECTS (newProject :: existing) in
  saveProjects setItem_ok updated st.

Definition removeProject (p : string) (setItem_ok : bool) (st : State) : State :=
  saveProjects setItem_ok (filter (other_path p) (projects st)) st.

Definition clearProjects (setItem_ok : bool) (st : State) : State :=
  saveProjects setItem_ok [] st.

Inductive Action :=
| Add (p : string) (now : Z) (setItem_ok : bool)
| Remove (p : string) (setItem_ok : bool)
| Clear (setItem_ok : bool).

Definition step (st : State) (a : Action) : State :=
  match a with
  | Add p now ok => addProject p now ok st
  | Remove p ok => removeProject p ok st
  | Clear ok => clearProjects ok st
  end.

(** The list stays within the limit, lists no path twice, and names every
    project after its path. *)
Definition Tidy (ps : list Project) : Prop :=
  List.length ps <= MAX_PROJECTS
  /\ NoDup (map path ps)
  /\ Forall (fun q => name q = getProjectName (path q)) ps.

Definition has_slash (s : string) : bool :=
  existsb (Ascii.eqb slash) (list_ascii_of_string s).

End Projects.

(** ** Terminal handoff ([src/lib/handoff.ts]) *)

Module Handoff.

Definition backslash : ascii := ascii_of_nat 92.
Definition quote : ascii := ascii_of_nat 34.

(** [str.replace(/c/g, replacement)] for a pattern that is one literal
    character and a replacement without [$] patterns. *)
Fixpoint replace_all (c : ascii) (replacement : string) (str : string)
  : string :=
  match str with
  | EmptyString => EmptyString
  | String a rest =>
      if Ascii.eqb a c then (replacement ++ replace_all c replacement rest)%string
      else String a (replace_all c replacement rest)
  end.

Definition escapeForAppleScript (str : string) : string :=
  replace_all quote (String backslash (String quote EmptyString))
    (replace_all backslash (String backslash (String backslash EmptyString))
       str).

(** How a double-quoted AppleScript literal is read, from just after the
    opening quote: a backslash makes the next character literal, a bare
    quote closes the literal.  The result is the text denoted and what
    follows the closing quote; [None] when the literal is not closed. *)
Fixpoint read_literal (s : string) : option (string * string) :=
  match s with
  | EmptyString => None
  | String a rest =>
      if Ascii.eqb a quote then Some (EmptyString, rest)
      else if Ascii.eqb a backslash then
        match rest with
        | EmptyString => None
        | String b rest' =>
            match read_literal rest' with
            | Some (text, after) => Some (String b text, after)
            | None => None
            end
        end
      else
        match read_literal rest with
        | Some (text, after) => Some (String a text, after)
        | None => None
        end
  end.

Definition plain (a : ascii) : bool :=
  negb (Ascii.eqb a quote) && negb (Ascii.eqb a backslash).

End Handoff.

(** ** Prompting ([src/hooks/useOpenCode.ts]) *)

Module OpenCodeHook.

(** [text.slice(0, 50) + (text.length > 50 ? "..." : "")]. *)
Definition titlePreview (text : string) : string :=
  (substring 0 50 text
   ++ (if (50 <? String.length text)%nat then "..." else ""))%string.

(** The title of the session created for a first prompt. *)
Definition sessionTitle (text : string) : string :=
  ("Raycast: " ++ titlePreview text)%string.

End OpenCodeHook.

(** * Facts about the primitives *)

Module JSFacts.

Lemma to_int_not_nil (n : Z) :
  Z.to_int n <> Decimal.Pos Decimal.Nil /\ Z.to_int n <> Decimal.Neg Decimal.Nil.
Proof.
  split; intros E; pose proof (f_equal Z.of_int E) as E0;
    rewrite DecimalZ.of_to in E0; cbn in E0; subst n; discriminate.
Qed.

(** The decimal rendering separates distinct integers, so comparing two
    renderings is comparing the numbers. *)
Lemma number_to_string_inj (a b : Z) :
  JS.number_to_string a = JS.number_to_string b -> a = b.
Proof.
  unfold JS.number_to_string; intros E.
  apply DecimalZ.to_int_inj.
  destruct (to_int_not_nil a) as [Ha1 Ha2], (to_int_not_nil b) as [Hb1 Hb2].
  pose proof (NilZero.isi _ Ha1 Ha2) as Pa.
  pose proof (NilZero.isi _ Hb1 Hb2) as Pb.
  rewrite E in Pa; rewrite Pa in Pb; now inversion Pb.
Qed.

Lemma number_to_string_eqb (a b : Z) :
  String.eqb (JS.number_to_string a) (JS.number_to_string b) = Z.eqb a b.
Proof.
  destruct (Z.eqb_spec a b) as [->|N].
  - apply String.eqb_refl.
  - apply String.eqb_neq; intros E; apply N, number_to_string_inj, E.
Qed.

Lemma or_else_empty (s : string) : JS.or_else s "" = s.
Proof. unfold JS.or_else, JS.truthy; now destruct s. Qed.

Lemma trimStart_white (s : string) :
  forallb JS.is_white_space (list_ascii_of_string s) = true ->
  JS.trimStart s = "".
Proof.
  induction s as [|c s IH]; simpl; [reflexivity|].
  intros H; apply andb_true_iff in H as [Hc Hs]; rewrite Hc; auto.
Qed.

Lemma trim_white (s : string) :
  forallb JS.is_white_space (list_ascii_of_string s) = true ->
  JS.trim s = "".
Proof.
  intros H; unfold JS.trim; rewrite (trimStart_white s H); reflexivity.
Qed.

Lemma slice_last_all {A} (n : nat) (a : list A) :
  List.length a <= n -> JS.slice_last n a = a.
Proof.
  intros H; unfold JS.slice_last.
  replace (List.length a - n) with 0 by lia; reflexivity.
Qed.

Lemma slice_last_app {A} (n : nat) (pre suf : list A) :
  List.length suf = n -> JS.slice_last n (pre ++ suf) = suf.
Proof.
  intros H; unfold JS.slice_last; rewrite length_app.
  replace (List.length pre + List.length suf - n) with (List.length pre) by lia.
  rewrite skipn_app, skipn_all, Nat.sub_diag; reflexivity.
Qed.

Lemma slice_last_length {A} (n : nat) (a : list A) :
  List.length (JS.slice_last n a) = Nat.min n (List.length a).
Proof. unfold JS.slice_last; rewrite length_skipn; lia. Qed.

End JSFacts.

Module ListFacts.

Lemma in_firstn {A} (n : nat) (l : list A) x : In x (firstn n l) -> In x l.
Proof.
  intros I; rewrite <- (firstn_skipn n l); apply in_or_app; now left.
Qed.

Lemma in_skipn {A} (n : nat) (l : list A) x : In x (skipn n l) -> In x l.
Proof.
  intros I; rewrite <- (firstn_skipn n l); apply in_or_app; now right.
Qed.

Lemma in_slice {A} (a b : nat) (l : list A) x :
  In x (JS.slice a b l) -> In x l.
Proof. intros I; eapply in_skipn, in_firstn, I. Qed.

End ListFacts.

Module JSMapFacts.
Section Facts.
Context {V : Type}.
Implicit Types (m : JSMap.t V) (k : string) (v : V).

Lemma get_set_eq k v m : JSMap.get k (JSMap.set k v m) = Some v.
Proof.
  induction m as [|[k' v'] m IH]; simpl.
  - now rewrite String.eqb_refl.
  - destruct (String.eqb_spec k' k); simpl.
    + now rewrite String.eqb_refl.
    + destruct (String.eqb_spec k' k); [contradiction|exact IH].
Qed.

Lemma get_set_neq k k' v m :
  k <> k' -> JSMap.get k' (JSMap.set k v m) = JSMap.get k' m.
Proof.
  intros N; induction m as [|[k0 v0] m IH]; simpl.
  - destruct (String.eqb_spec k k'); [contradiction|reflexivity].
  - destruct (String.eqb_spec k0 k) as [->|N0]; simpl.
    + destruct (String.eqb_spec k k'); [contradiction|reflexivity].
    + now rewrite IH.
Qed.

Lemma get_delete_eq k m : JSMap.get k (JSMap.delete k m) = None.
Proof.
  induction m as [|[k' v'] m IH]; simpl; [reflexivity|].
  destruct (String.eqb_spec k' k) as [->|N]; simpl; [exact IH|].
  destruct (String.eqb_spec k' k); [contradiction|exact IH].
Qed.

Lemma get_delete_neq k k' m :
  k <> k' -> JSMap.get k' (JSMap.delete k m) = JSMap.get k' m.
Proof.
  intros N; induction m as [|[k0 v0] m IH]; simpl; [reflexivity|].
  destruct (String.eqb_spec k0 k) as [->|N0]; simpl.
  - destruct (String.eqb_spec k k'); [contradiction|exact IH].
  - now rewrite IH.
Qed.

Lemma in_keys_get k m : In k (JSMap.keys m) <-> JSMap.get k m <> None.
Proof.
  induction m as [|[k' v'] m IH]; simpl.
  - split; [tauto|congruence].
  - destruct (String.eqb_spec k' k) as [->|N].
    + split; [discriminate|auto].
    + rewrite <- IH; split; [intros [E|I]; [contradiction|exact I]|auto].
Qed.

Lemma has_in_keys k m : JSMap.has k m = true <-> In k (JSMap.keys m).
Proof.
  rewrite in_keys_get; unfold JSMap.has.
  destruct (JSMap.get k m); split; congruence.
Qed.

Lemma has_false_get k m : JSMap.has k m = false <-> JSMap.get k m = None.
Proof. unfold JSMap.has; destruct (JSMap.get k m); split; congruence. Qed.

Lemma keys_set k v m k' :
  In k' (JSMap.keys (JSMap.set k v m)) <-> k' = k \/ In k' (JSMap.keys m).
Proof.
  rewrite !in_keys_get.
  destruct (string_dec k k') as [->|N].
  - rewrite get_set_eq; split; [auto|discriminate].
  - rewrite (get_set_neq _ _ _ _ N); split; [auto|].
    intros [E|H]; [congruence|exact H].
Qed.

Lemma keys_delete k m k' :
  In k' (JSMap.keys (JSMap.delete k m)) <-> k' <> k /\ In k' (JSMap.keys m).
Proof.
  rewrite !in_keys_get.
  destruct (string_dec k k') as [->|N].
  - rewrite get_delete_eq; split; [congruence|intros [H _]; congruence].
  - rewrite (get_delete_neq _ _ _ N); split; [auto|tauto].
Qed.

Lemma set_fresh k v m :
  ~ In k (JSMap.keys m) -> JSMap.set k v m = m ++ [(k, v)].
Proof.
  induction m as [|[k' v'] m IH]; simpl; [reflexivity|].
  intros N; destruct (String.eqb_spec k' k) as [->|N0]; [tauto|].
  rewrite IH; [reflexivity|tauto].
Qed.

Lemma keys_set_present k v m :
  In k (JSMap.keys m) -> JSMap.keys (JSMap.set k v m) = JSMap.keys m.
Proof.
  induction m as [|[k' v'] m IH]; simpl; [tauto|].
  intros H; destruct (String.eqb_spec k' k) as [->|N0]; simpl; [reflexivity|].
  f_equal; apply IH; destruct H; [contradiction|assumption].
Qed.

Lemma wf_set k v m : JSMap.wf m -> JSMap.wf (JSMap.set k v m).
Proof.
  unfold JSMap.wf; intros W.
  destruct (in_dec string_dec k (JSMap.keys m)) as [I|N].
  - now rewrite keys_set_present.
  - rewrite (set_fresh _ _ _ N); unfold JSMap.keys; rewrite map_app; simpl.
    apply NoDup_app_remove_l with (l := []); simpl.
    apply Permutation_NoDup with (l := k :: map fst m).
    + apply Permutation_cons_append.
    + constructor; assumption.
Qed.

Lemma delete_in k m e : In e (JSMap.delete k m) <-> fst e <> k /\ In e m.
Proof.
  induction m as [|[k' v'] m IH]; simpl; [tauto|].
  destruct (String.eqb_spec k' k) as [->|N]; simpl; rewrite IH.
  - split; [tauto|]. intros [Hn [E|I]]; [subst e; simpl in Hn; tauto|tauto].
  - split; [intros [E|[Hn I]]; [subst e; simpl; tauto|tauto]|tauto].
Qed.

Lemma wf_delete k m : JSMap.wf m -> JSMap.wf (JSMap.delete k m).
Proof.
  unfold JSMap.wf; induction m as [|[k' v'] m IH]; simpl; [auto|].
  intros W; inversion W as [|? ? Hn Hd]; subst.
  destruct (String.eqb_spec k' k) as [->|N]; simpl; [auto|].
  constructor; [|auto].
  intros I; apply Hn. apply keys_delete in I; tauto.
Qed.

Lemma in_get k v m : JSMap.wf m -> (In (k, v) m <-> JSMap.get k m = Some v).
Proof.
  unfold JSMap.wf; induction m as [|[k' v'] m IH]; simpl.
  - split; [tauto|discriminate].
  - intros W; inversion W as [|? ? Hn Hd]; subst.
    destruct (String.eqb_spec k' k) as [->|N].
    + split.
      * intros [E|I]; [congruence|].
        exfalso; apply Hn; change k with (fst (k, v)); now apply in_map.
      * intros E; left; congruence.
    + rewrite <- (IH Hd); split; [intros [E|I]; [congruence|exact I]|auto].
Qed.

Lemma set_in k v m e :
  JSMap.wf m ->
  In e (JSMap.set k v m) -> e = (k, v) \/ (fst e <> k /\ In e m).
Proof.
  intros W I; destruct e as [k' v']; simpl.
  apply (in_get _ _ _ (wf_set k v m W)) in I.
  destruct (string_dec k k') as [->|N].
  - rewrite get_set_eq in I; left; congruence.
  - rewrite (get_set_neq _ _ _ _ N) in I; right; split; [congruence|].
    now apply in_get.
Qed.

End Facts.
End JSMapFacts.

Module FlexFacts.
Implicit Types (idx : FlexSearch.Index) (k i t : string).

Lemma ids_remove k idx i :
  In i (FlexSearch.ids (FlexSearch.remove k idx))
  <-> i <> k /\ In i (FlexSearch.ids idx).
Proof.
  unfold FlexSearch.ids, FlexSearch.remove; rewrite !in_map_iff; split.
  - intros [e [E I]]; apply filter_In in I as [I Hn]; subst i.
    apply negb_true_iff, String.eqb_neq in Hn; split; [exact Hn|eauto].
  - intros [N [e [E I]]]; exists e; split; [exact E|].
    apply filter_In; split; [exact I|].
    apply negb_true_iff, String.eqb_neq; congruence.
Qed.

Lemma ids_add k t idx i :
  In i (FlexSearch.ids (FlexSearch.add k t idx))
  <-> i = k \/ In i (FlexSearch.ids idx).
Proof.
  unfold FlexSearch.add, FlexSearch.ids at 1; rewrite map_app, in_app_iff.
  fold (FlexSearch.ids (FlexSearch.remove k idx)); rewrite ids_remove; simpl.
  destruct (string_dec i k); intuition congruence.
Qed.

Lemma holds_text keeps k t idx :
  FlexSearch.text_of k idx = Some t ->
  FlexSearch.holds keeps k idx = keeps k t.
Proof. unfold FlexSearch.holds; now intros ->. Qed.

Lemma holds_in_ids keeps k idx :
  FlexSearch.holds keeps k idx = true -> In k (FlexSearch.ids idx).
Proof.
  unfold FlexSearch.holds, FlexSearch.text_of, FlexSearch.ids.
  destruct (find _ idx) as [e|] eqn:F; simpl; [intros _|discriminate].
  apply find_some in F as [I E]; apply String.eqb_eq in E.
  apply in_map_iff; eauto.
Qed.

Lemma NoDup_remove k idx :
  NoDup (FlexSearch.ids idx) -> NoDup (FlexSearch.ids (FlexSearch.remove k idx)).
Proof.
  unfold FlexSearch.ids, FlexSearch.remove.
  induction idx as [|e idx IH]; simpl; [auto|].
  intros W; inversion W as [|? ? Hn Hd]; subst.
  destruct (negb (String.eqb (fst e) k)); simpl; [|auto].
  constructor; [|auto].
  intros I; apply Hn; apply in_map_iff in I as [e' [E I]].
  apply filter_In in I as [I _]; apply in_map_iff; eauto.
Qed.

Lemma NoDup_add k t idx :
  NoDup (FlexSearch.ids idx) -> NoDup (FlexSearch.ids (FlexSearch.add k t idx)).
Proof.
  intros W; unfold FlexSearch.add, FlexSearch.ids; rewrite map_app; simpl.
  apply Permutation_NoDup
    with (l := k :: FlexSearch.ids (FlexSearch.remove k idx)).
  - apply Permutation_cons_append.
  - constructor; [|now apply NoDup_remove].
    intros I; apply ids_remove in I; tauto.
Qed.

Lemma contain_ids k idx :
  FlexSearch.contain k idx = true <-> In k (FlexSearch.ids idx).
Proof.
  unfold FlexSearch.contain, FlexSearch.ids.
  rewrite existsb_exists, in_map_iff; split.
  - intros [e [I E]]; apply String.eqb_eq in E; eauto.
  - intros [e [E I]]; exists e; split; [exact I|now apply String.eqb_eq].
Qed.

Lemma find_remove_neq k k' idx :
  k <> k' ->
  find (fun e => String.eqb (fst e) k') (FlexSearch.remove k idx)
  = find (fun e => String.eqb (fst e) k') idx.
Proof.
  intros N; unfold FlexSearch.remove.
  induction idx as [|e idx IH]; simpl; [reflexivity|].
  destruct (String.eqb_spec (fst e) k) as [E|Ne]; simpl.
  - destruct (String.eqb_spec (fst e) k'); [congruence|exact IH].
  - destruct (String.eqb (fst e) k'); [reflexivity|exact IH].
Qed.

Lemma find_remove_eq k idx :
  find (fun e => String.eqb (fst e) k) (FlexSearch.remove k idx) = None.
Proof.
  unfold FlexSearch.remove.
  induction idx as [|e idx IH]; simpl; [reflexivity|].
  destruct (String.eqb_spec (fst e) k) as [E|Ne]; simpl; [exact IH|].
  destruct (String.eqb_spec (fst e) k); [contradiction|exact IH].
Qed.

Lemma find_app_none {A} (f : A -> bool) (l1 l2 : list A) :
  find f l1 = None -> find f (l1 ++ l2) = find f l2.
Proof.
  induction l1 as [|a l1 IH]; simpl; [reflexivity|].
  destruct (f a); [discriminate|exact IH].
Qed.

Lemma find_app_some {A} (f : A -> bool) (l1 l2 : list A) a :
  find f l1 = Some a -> find f (l1 ++ l2) = Some a.
Proof.
  induction l1 as [|b l1 IH]; simpl; [discriminate|].
  destruct (f b); [auto|exact IH].
Qed.

Lemma text_of_add_eq k t idx :
  FlexSearch.text_of k (FlexSearch.add k t idx) = Some t.
Proof.
  unfold FlexSearch.text_of, FlexSearch.add.
  rewrite find_app_none by apply find_remove_eq.
  simpl; now rewrite String.eqb_refl.
Qed.

Lemma text_of_remove_neq k k' idx :
  k <> k' ->
  FlexSearch.text_of k' (FlexSearch.remove k idx) = FlexSearch.text_of k' idx.
Proof. intros N; unfold FlexSearch.text_of; now rewrite find_remove_neq. Qed.

Lemma text_of_add_neq k k' t idx :
  k <> k' ->
  FlexSearch.text_of k' (FlexSearch.add k t idx) = FlexSearch.text_of k' idx.
Proof.
  intros N; unfold FlexSearch.text_of, FlexSearch.add.
  destruct (find (fun e => String.eqb (fst e) k') (FlexSearch.remove k idx))
    as [a|] eqn:F.
  - rewrite (find_app_some _ _ _ _ F).
    rewrite find_remove_neq in F by exact N; now rewrite F.
  - rewrite (find_app_none _ _ _ F); simpl.
    rewrite find_remove_neq in F by exact N; rewrite F.
    destruct (String.eqb_spec k k'); [contradiction|reflexivity].
Qed.

Lemma remove_remove k idx :
  FlexSearch.remove k (FlexSearch.remove k idx) = FlexSearch.remove k idx.
Proof.
  unfold FlexSearch.remove; induction idx as [|e idx IH]; simpl; [reflexivity|].
  destruct (negb (String.eqb (fst e) k)) eqn:E; simpl; [rewrite E, IH|]; auto.
Qed.

Lemma search_ids matches q limit idx i :
  In i (FlexSearch.search matches q limit idx) -> In i (FlexSearch.ids idx).
Proof.
  unfold FlexSearch.search, FlexSearch.ids; intros I.
  apply ListFacts.in_firstn, in_map_iff in I as [e [E I]].
  apply filter_In in I as [I _]; apply in_map_iff; eauto.
Qed.

End FlexFacts.

Section InvariantFacts.
Import JSMapFacts FlexFacts.
Implicit Types (m : JSMap.t IndexedSession.t) (r : IndexedSession.t).

Lemma Keyed_empty : Keyed JSMap.empty.
Proof. split; [constructor|intros e []]. Qed.

Lemma Keyed_set m r :
  Keyed m -> Keyed (JSMap.set (IndexedSession.id r) r m).
Proof.
  intros [W K]; split; [now apply wf_set|].
  intros e I; apply set_in in I as [->|[_ I]]; auto.
Qed.

Lemma Keyed_delete m k : Keyed m -> Keyed (JSMap.delete k m).
Proof.
  intros [W K]; split; [now apply wf_delete|].
  intros e I; apply delete_in in I as [_ I]; auto.
Qed.

Lemma Keyed_get m k r :
  Keyed m -> JSMap.get k m = Some r -> IndexedSession.id r = k.
Proof. intros [W K] G; apply in_get in G; [apply (K _ G)|exact W]. Qed.

Lemma records_with_id_none m i :
  (forall e, In e m -> IndexedSession.id (snd e) = fst e) ->
  ~ In i (JSMap.keys m) -> records_with_id i m = [].
Proof.
  intros K N; unfold records_with_id.
  induction m as [|e m IH]; simpl; [reflexivity|].
  destruct (String.eqb_spec (IndexedSession.id (snd e)) i) as [E|Ne].
  - exfalso; apply N; left; rewrite <- E; symmetry; apply K; now left.
  - apply IH; [intros; apply K; now right|intros I; apply N; now right].
Qed.

(** Under [Keyed], the records carrying an id are the one found by
    [get], if any: never two. *)
Lemma records_with_id_get m i :
  Keyed m ->
  records_with_id i m
  = match JSMap.get i m with Some r => [(i, r)] | None => [] end.
Proof.
  intros [W K]; unfold JSMap.wf in W.
  induction m as [|[k r] m IH]; simpl; [reflexivity|].
  inversion W as [|? ? Hn Hd]; subst.
  assert (Ek : IndexedSession.id r = k) by (apply (K (k, r)); now left).
  assert (K' : forall e, In e m -> IndexedSession.id (snd e) = fst e)
    by (intros; apply K; now right).
  rewrite Ek; destruct (String.eqb_spec k i) as [->|N].
  - f_equal; apply records_with_id_none; assumption.
  - apply IH; assumption.
Qed.

Lemma Consistent_empty :
  Consistent {| index := FlexSearch.create; indexedData := JSMap.empty |}.
Proof.
  split; [apply Keyed_empty|split; [constructor|intros i; simpl; tauto]].
Qed.

Lemma Consistent_put mem r text idx0 :
  Consistent mem ->
  (idx0 = index mem \/ idx0 = FlexSearch.remove (IndexedSession.id r) (index mem)) ->
  Consistent
    {| index := FlexSearch.add (IndexedSession.id r) text idx0;
       indexedData := JSMap.set (IndexedSession.id r) r (indexedData mem) |}.
Proof.
  intros (K & N & S) H; simpl.
  assert (E : FlexSearch.add (IndexedSession.id r) text idx0
              = FlexSearch.add (IndexedSession.id r) text (index mem)).
  { destruct H as [->| ->]; [reflexivity|].
    unfold FlexSearch.add; now rewrite remove_remove. }
  rewrite E; split; [now apply Keyed_set|split; [now apply NoDup_add|]].
  simpl; intros i; rewrite ids_add, keys_set, S; tauto.
Qed.

Lemma Consistent_load_item mem item :
  Consistent mem -> Consistent (load_item mem item).
Proof. intros C; unfold load_item; apply Consistent_put; auto. Qed.

Lemma Consistent_fold {A} (f : Mem -> A -> Mem) (l : list A) mem :
  (forall mem a, Consistent mem -> Consistent (f mem a)) ->
  Consistent mem -> Consistent (fold_left f l mem).
Proof. intros Hf; revert mem; induction l; simpl; auto. Qed.

Lemma Consistent_loadCachedIndex storage mem :
  Consistent mem -> Consistent (loadCachedIndex storage mem).
Proof.
  intros C; unfold loadCachedIndex.
  destruct storage as [[|cached]|]; auto.
  destruct (negb _); auto.
  apply Consistent_fold; auto using Consistent_load_item.
Qed.

Lemma Consistent_indexSession client mem session :
  Consistent mem -> Consistent (indexSession client mem session).
Proof.
  intros C; unfold indexSession.
  destruct (client _ _) as [messages|].
  - apply (Consistent_put mem (make_indexed session _)); auto.
    destruct (JSMap.has _ _); auto.
  - destruct (negb _); [|exact C].
    apply (Consistent_put mem (make_indexed session _)); auto.
Qed.

Lemma Consistent_prune_step ids mem i :
  Consistent mem -> Consistent (prune_step ids mem i).
Proof.
  intros C; pose proof C as (K & N & S); unfold prune_step.
  destruct (negb _); [|exact C].
  split; [now apply Keyed_delete|split; [now apply NoDup_remove|]].
  simpl; intros j; rewrite ids_remove, keys_delete, S; tauto.
Qed.

Lemma Consistent_pruneDeletedSessions sessions mem :
  Consistent mem -> Consistent (pruneDeletedSessions sessions mem).
Proof.
  intros C; unfold pruneDeletedSessions.
  apply Consistent_fold; auto using Consistent_prune_step.
Qed.

End InvariantFacts.

Section CycleInvariant.
Import JSMapFacts FlexFacts.

Lemma Consistent_IndexInvariant mem : Consistent mem -> IndexInvariant mem.
Proof.
  intros (K & N & S) i I; rewrite (records_with_id_get _ _ K).
  apply S, in_keys_get in I.
  destruct (JSMap.get i (indexedData mem)) as [r|]; [eauto|congruence].
Qed.

Lemma Consistent_indexSessionBatch completion batch client mem :
  Consistent mem ->
  Consistent (fst (indexSessionBatch completion batch client mem)).
Proof.
  intros C; simpl; apply Consistent_fold; auto using Consistent_indexSession.
Qed.

Lemma Consistent_batch_loop left :
  forall batchIndex batchSize toIndex env client mem progress,
    Consistent mem ->
    Consistent
      (fst (fst (batch_loop left batchIndex batchSize toIndex env client mem
                   progress))).
Proof.
  induction left as [|left IH]; intros bi bs toIndex env client mem p C;
    simpl; [exact C|].
  destruct (List.length _ =? 0)%nat; [exact C|].
  specialize (IH (S bi) bs toIndex env client
                (fold_left (indexSession client)
                   (completion env (batch_of bs bi toIndex)) mem)
                (progress_after bi)).
  destruct (batch_loop left _ _ _ _ _ _ _) as [[mem2 p2] ev3]; simpl in *.
  apply IH, Consistent_fold; auto using Consistent_indexSession.
Qed.

Lemma Consistent_buildIndex env sessions h :
  Consistent (mem_of h) ->
  Consistent (mem_of (fst (buildIndex env sessions h))).
Proof.
  intros C; unfold buildIndex.
  pose proof (Consistent_loadCachedIndex (localStorage h) _ C) as C0.
  set (mem0 := loadCachedIndex (localStorage h) (mem_of h)) in *.
  destruct (List.length _ =? 0)%nat; [destruct mem0; exact C0|].
  destruct (getClient env) as [client|]; [|destruct mem0; exact C0].
  match goal with
  | |- context [batch_loop ?l ?bi ?bs ?t ?e ?c ?m ?p] =>
      pose proof (Consistent_batch_loop l bi bs t e c m p C0) as C1;
      destruct (batch_loop l bi bs t e c m p) as [[mem1 p1] evs]
  end.
  simpl in *.
  apply (Consistent_pruneDeletedSessions sessions) in C1.
  destruct (pruneDeletedSessions sessions mem1); exact C1.
Qed.

Lemma Consistent_refreshEffect env sessions h :
  Consistent (mem_of h) ->
  Consistent (mem_of (fst (refreshEffect env sessions h))).
Proof.
  intros C; unfold refreshEffect.
  destruct (List.length sessions =? 0)%nat; [exact C|].
  destruct (isIndexingRef h); [exact C|now apply Consistent_buildIndex].
Qed.

Lemma Consistent_warm : Consistent (mem_of Ex.warm).
Proof.
  change (mem_of Ex.warm)
    with (load_item
            (load_item
               {| index := FlexSearch.create; indexedData := JSMap.empty |}
               Ex.rec_a) Ex.rec_x).
  apply Consistent_load_item, Consistent_load_item, Consistent_empty.
Qed.

End CycleInvariant.

(** C8.  Every operation that changes the index or the record map (cache
    load, indexing of one session whether its fetch succeeds or fails, a whole
    batch, pruning, a whole refresh cycle, cache clear) keeps the two
    consistent, so that every id registered in the index has exactly one
    record with that id in the record map; and whenever indexing a session
    writes a record, that record carries the session's id and its
    [updated] timestamp. *)
Theorem index_invariant_preserved (h : Hook) :
  Consistent (mem_of h) ->
  IndexInvariant (mem_of h)
  /\ (forall storage,
        Consistent (loadCachedIndex storage (mem_of h))
        /\ IndexInvariant (loadCachedIndex storage (mem_of h)))
  /\ (forall client session,
        let mem' := indexSession client (mem_of h) session in
        Consistent mem' /\ IndexInvariant mem'
        /\ ((client (Session.id session) (MESSAGES_PER_SESSION * 2) = None
             /\ JSMap.has (Session.id session) (indexedDataRef h) = true
             /\ mem' = mem_of h)
            \/ exists r,
                JSMap.get (Session.id session) (indexedData mem') = Some r
                /\ IndexedSession.id r = Session.id session
                /\ IndexedSession.updated r = Session.updated session))
  /\ (forall completion batch client,
        let mem' := fst (indexSessionBatch completion batch client (mem_of h)) in
        Consistent mem' /\ IndexInvariant mem')
  /\ (forall sessions,
        Consistent (pruneDeletedSessions sessions (mem_of h))
        /\ IndexInvariant (pruneDeletedSessions sessions (mem_of h)))
  /\ (forall env sessions,
        let mem' := mem_of (fst (refreshEffect env sessions h)) in
        Consistent mem' /\ IndexInvariant mem')
  /\ Consistent (mem_of (clearCache h))
  /\ IndexInvariant (mem_of (clearCache h)).
Proof.
  intros C.
  assert (both : forall mem, Consistent mem -> Consistent mem /\ IndexInvariant mem)
    by (intros mem Cm; split; [exact Cm|now apply Consistent_IndexInvariant]).
  split; [now apply Consistent_IndexInvariant|].
  split; [intros storage; now apply both, Consistent_loadCachedIndex|].
  split.
  { intros client session mem'.
    pose proof (Consistent_indexSession client _ session C) as C'.
    split; [exact C'|split; [now apply Consistent_IndexInvariant|]].
    subst mem'; unfold indexSession; simpl.
    destruct (client _ _) as [messages|].
    - right; eexists; simpl; rewrite JSMapFacts.get_set_eq; repeat split.
    - destruct (JSMap.has _ _) eqn:Hh; simpl.
      + left; auto.
      + right; eexists; rewrite JSMapFacts.get_set_eq; repeat split. }
  split; [intros; now apply both, Consistent_indexSessionBatch|].
  split; [intros; now apply both, Consistent_pruneDeletedSessions|].
  split; [intros; now apply both, Consistent_refreshEffect|].
  apply both, Consistent_empty.
Qed.

Lemma index_invariant_preserved_witness :
  Consistent (mem_of Ex.warm)
  /\ IndexInvariant (mem_of (fst (refreshEffect Ex.env_ok [Ex.a150; Ex.b200] Ex.warm))).
Proof.
  split; [exact Consistent_warm|].
  apply (index_invariant_preserved Ex.warm Consistent_warm).
Defined.

Section CacheFacts.
Import JSMapFacts.
Implicit Types (m acc : JSMap.t IndexedSession.t).

Lemma indexedData_fold_load_fresh (l : JSMap.t IndexedSession.t) :
  forall acc idx,
    NoDup (JSMap.keys acc ++ JSMap.keys l) ->
    (forall e, In e l -> IndexedSession.id (snd e) = fst e) ->
    indexedData
      (fold_left load_item (JSMap.values l)
         {| index := idx; indexedData := acc |})
    = acc ++ l.
Proof.
  induction l as [|[k r] l IH]; intros acc idx N K; simpl.
  - now rewrite app_nil_r.
  - assert (Ek : IndexedSession.id r = k) by (apply (K (k, r)); now left).
    unfold load_item at 2; simpl; rewrite Ek.
    rewrite set_fresh.
    + rewrite IH.
      * now rewrite <- app_assoc.
      * unfold JSMap.keys in *; rewrite map_app, <- app_assoc; exact N.
      * intros e I; apply K; now right.
    + intros I; simpl in N; apply NoDup_remove_2 in N.
      apply N, in_or_app; now left.
Qed.

Lemma set_same m k (v : IndexedSession.t) :
  JSMap.get k m = Some v -> JSMap.set k v m = m.
Proof.
  induction m as [|[k' v'] m IH]; simpl; [discriminate|].
  destruct (String.eqb_spec k' k) as [->|N]; intros G.
  - congruence.
  - now rewrite IH.
Qed.

Lemma indexedData_fold_load_same m (l : list IndexedSession.t) :
  forall mem,
    indexedData mem = m ->
    (forall r, In r l -> JSMap.get (IndexedSession.id r) m = Some r) ->
    indexedData (fold_left load_item l mem) = m.
Proof.
  induction l as [|r l IH]; intros mem E K; simpl; [exact E|].
  apply IH; [|intros; apply K; now right].
  simpl; rewrite E; apply set_same, K; now left.
Qed.

Lemma Keyed_values_get m r :
  Keyed m -> In r (JSMap.values m) ->
  JSMap.get (IndexedSession.id r) m = Some r.
Proof.
  intros [W K] I; apply in_map_iff in I as [[k r'] [E I]]; simpl in E; subst r'.
  pose proof (K _ I) as Ek; simpl in Ek; rewrite Ek; now apply in_get.
Qed.

End CacheFacts.

(** C9.  Writing a record map to the cache and reading the cache back gives
    the same records: the snapshot carries the current version and the
    records of the map in order, and loading it into an empty memory rebuilds
    the same record map (same ids, each with the same title, directory,
    content and timestamp); loading it into the memory it was saved from
    leaves the record map as it is.  The record map is one the hook can hold:
    keys distinct, every record stored under its own id. *)
Theorem cache_roundtrip (m : JSMap.t IndexedSession.t)
        (before : option StoredItem) :
  Keyed m ->
  let stored := saveCachedIndex true m before in
  stored = Some (StoredJson (build_cache m))
  /\ version (build_cache m) = CACHE_VERSION
  /\ indexedSessions (build_cache m) = JSMap.values m
  /\ indexedData
       (loadCachedIndex stored
          {| index := FlexSearch.create; indexedData := JSMap.empty |}) = m
  /\ (forall idx,
        indexedData
          (loadCachedIndex stored {| index := idx; indexedData := m |}) = m)
  /\ (forall k,
        JSMap.get k
          (indexedData
             (loadCachedIndex stored
                {| index := FlexSearch.create; indexedData := JSMap.empty |}))
        = JSMap.get k m).
Proof.
  intros K stored.
  assert (L : indexedData
                (loadCachedIndex stored
                   {| index := FlexSearch.create; indexedData := JSMap.empty |})
              = m).
  { subst stored; simpl.
    rewrite indexedData_fold_load_fresh; [reflexivity| |apply K].
    simpl; apply K. }
  repeat split; try assumption.
  - intros idx; subst stored; simpl.
    apply indexedData_fold_load_same; [reflexivity|].
    intros r I; now apply Keyed_values_get.
  - intros k; now rewrite L.
Qed.

Lemma cache_roundtrip_witness :
  Keyed [("a", Ex.rec_a); ("x", Ex.rec_x)]
  /\ indexedData
       (loadCachedIndex
          (saveCachedIndex true [("a", Ex.rec_a); ("x", Ex.rec_x)] None)
          {| index := FlexSearch.create; indexedData := JSMap.empty |})
     = [("a", Ex.rec_a); ("x", Ex.rec_x)].
Proof.
  split; [exact (proj1 Consistent_warm)|].
  apply (cache_roundtrip [("a", Ex.rec_a); ("x", Ex.rec_x)] None
           (proj1 Consistent_warm)).
Defined.

Section ExtractorFacts.

Lemma slice_last_map {A B} (f : A -> B) (n : nat) (l : list A) :
  JS.slice_last n (map f l) = map f (JS.slice_last n l).
Proof. unfold JS.slice_last; now rewrite length_map, skipn_map. Qed.

Lemma flat_map_map {A B C} (f : A -> B) (g : B -> list C) (l : list A) :
  flat_map g (map f l) = flat_map (fun a => g (f a)) l.
Proof. induction l as [|a l IH]; simpl; [reflexivity|now rewrite IH]. Qed.

Lemma flat_map_ext_in {A B} (f g : A -> list B) (l : list A) :
  (forall a, In a l -> f a = g a) -> flat_map f l = flat_map g l.
Proof.
  induction l as [|a l IH]; simpl; intros H; [reflexivity|].
  rewrite (H a), IH; auto.
Qed.

Lemma filter_filter {A} (f g : A -> bool) (l : list A) :
  filter f (filter g l) = filter (fun a => g a && f a) l.
Proof.
  induction l as [|a l IH]; simpl; [reflexivity|].
  destruct (g a); simpl; [destruct (f a)|]; now rewrite IH.
Qed.

Lemma is_text_part_split (p : MessagePart.t) :
  is_text_part p = negb (is_empty_text_segment p) && is_textual_segment p.
Proof.
  unfold is_empty_text_segment, is_text_part, is_textual_segment.
  destruct (String.eqb _ _); simpl; [|reflexivity].
  now rewrite negb_involutive, andb_true_r.
Qed.

Lemma text_segments_without_empty (msg : Message.t) :
  filter is_textual_segment (Message.parts (without_empty_text_segments msg))
  = filter is_text_part (Message.parts msg).
Proof.
  simpl; rewrite filter_filter; apply filter_ext; intros p.
  now rewrite is_text_part_split.
Qed.

Lemma text_segments_without_non_text (msg : Message.t) :
  filter is_text_part (Message.parts (without_non_text_segments msg))
  = filter is_text_part (Message.parts msg).
Proof.
  simpl; rewrite filter_filter; apply filter_ext; intros p.
  unfold is_text_part, is_textual_segment.
  now destruct (String.eqb _ _).
Qed.

Lemma extract_as_spec (messages : list Message.t) :
  extractTextFromMessages messages
  = spec_extract MESSAGES_PER_SESSION
      (map without_empty_text_segments messages).
Proof.
  unfold extractTextFromMessages, spec_extract.
  rewrite slice_last_map, flat_map_map; f_equal.
  apply flat_map_ext; intros msg; now rewrite text_segments_without_empty.
Qed.

End ExtractorFacts.

(** C7 as stated fails: a textual segment with empty text is skipped by the
    extractor, while joining every textual segment would leave two
    separators in a row. *)
Lemma extract_skips_empty_text_segment :
  let messages :=
    [Ex.message [Ex.text_part "a"; Ex.text_part ""; Ex.text_part "b"]] in
  extractTextFromMessages messages = "a b"
  /\ spec_extract 10 messages = "a  b"
  /\ extractTextFromMessages messages <> spec_extract 10 messages.
Proof. repeat split; discriminate. Qed.

(** C7, amended.  The extractor returns, joined by single spaces, the text of
    every textual segment with non-empty text of the last 10 messages (all
    messages when there are at most 10), in message order and in segment
    order within a message.  Segments that are not textual, and textual
    segments whose text is missing or empty, contribute nothing; on messages
    that have no such empty textual segment the result is the
    specification's. *)
Theorem extract_text_last_ten_nonempty_segments (messages : list Message.t) :
  extractTextFromMessages messages
  = spec_extract 10 (map without_empty_text_segments messages)
  /\ ((forall msg part,
         In msg messages -> In part (Message.parts msg) ->
         is_empty_text_segment part = false) ->
      extractTextFromMessages messages = spec_extract 10 messages)
  /\ extractTextFromMessages (map without_non_text_segments messages)
     = extractTextFromMessages messages
  /\ extractTextFromMessages messages
     = extractTextFromMessages (JS.slice_last 10 messages)
  /\ (List.length messages <= 10 -> JS.slice_last 10 messages = messages)
  /\ (forall older recent,
        messages = older ++ recent -> List.length recent = 10 ->
        extractTextFromMessages messages = extractTextFromMessages recent).
Proof.
  split; [apply extract_as_spec|].
  split.
  { intros H; unfold extractTextFromMessages, spec_extract; f_equal.
    apply flat_map_ext_in; intros msg I; f_equal.
    apply filter_ext_in; intros p Ip.
    rewrite is_text_part_split, (H msg p); auto.
    eapply ListFacts.in_skipn, I. }
  split.
  { unfold extractTextFromMessages.
    rewrite slice_last_map, flat_map_map; f_equal.
    apply flat_map_ext; intros msg; now rewrite text_segments_without_non_text. }
  split.
  { unfold extractTextFromMessages; f_equal; f_equal.
    symmetry; apply JSFacts.slice_last_all.
    rewrite JSFacts.slice_last_length; apply Nat.le_min_l. }
  split; [apply JSFacts.slice_last_all|].
  intros older recent -> L.
  unfold extractTextFromMessages, MESSAGES_PER_SESSION.
  rewrite (JSFacts.slice_last_app _ older recent L).
  now rewrite JSFacts.slice_last_all by (rewrite L; apply Nat.le_refl).
Qed.

Lemma extract_text_last_ten_nonempty_segments_witness :
  extractTextFromMessages
    [Ex.message [Ex.text_part "null pointer"; Ex.tool_part];
     Ex.message [Ex.text_part "exception"]]
  = spec_extract 10
      [Ex.message [Ex.text_part "null pointer"; Ex.tool_part];
       Ex.message [Ex.text_part "exception"]].
Proof.
  apply (proj1 (proj2 (extract_text_last_ten_nonempty_segments
           [Ex.message [Ex.text_part "null pointer"; Ex.tool_part];
            Ex.message [Ex.text_part "exception"]]))).
  intros msg part [<-|[<-|[]]] Ip; simpl in Ip;
    repeat (destruct Ip as [<-|Ip]; [reflexivity|]); destruct Ip.
Defined.

Section PruneFacts.
Import JSMapFacts FlexFacts.

Lemma prune_fold_get (ids : list string) (L : list string) :
  forall mem k,
    JSMap.get k (indexedData (fold_left (prune_step ids) L mem))
    = if existsb (String.eqb k) L && negb (existsb (String.eqb k) ids)
      then None else JSMap.get k (indexedData mem).
Proof.
  induction L as [|i L IH]; intros mem k; simpl; [reflexivity|].
  rewrite IH; unfold prune_step.
  destruct (String.eqb_spec k i) as [->|N]; simpl.
  - destruct (existsb (String.eqb i) ids); simpl.
    + now rewrite andb_false_r.
    + rewrite get_delete_eq; now destruct (existsb (String.eqb i) L).
  - destruct (negb (existsb (String.eqb i) ids)); simpl; [|reflexivity].
    rewrite get_delete_neq by congruence; reflexivity.
Qed.

Lemma prune_fold_index (ids : list string) (L : list string) :
  forall mem k,
    existsb (String.eqb k) ids = true ->
    FlexSearch.text_of k (index (fold_left (prune_step ids) L mem))
    = FlexSearch.text_of k (index mem).
Proof.
  induction L as [|i L IH]; intros mem k Hk; simpl; [reflexivity|].
  rewrite IH by exact Hk; unfold prune_step.
  destruct (existsb (String.eqb i) ids) eqn:Hi; simpl; [reflexivity|].
  apply text_of_remove_neq; intros ->; congruence.
Qed.

Lemma existsb_eqb_in (k : string) (l : list string) :
  existsb (String.eqb k) l = true <-> In k l.
Proof.
  rewrite existsb_exists; split.
  - intros [x [I E]]; apply String.eqb_eq in E; now subst.
  - intros I; exists k; split; [exact I|apply String.eqb_refl].
Qed.

(** Pruning removes from the record map every key that is not the id of a
    current session, and keeps every other record. *)
Lemma prune_get (sessions : list Session.t) (mem : Mem) (k : string) :
  JSMap.get k (indexedData (pruneDeletedSessions sessions mem))
  = if existsb (String.eqb k) (map Session.id sessions)
    then JSMap.get k (indexedData mem) else None.
Proof.
  unfold pruneDeletedSessions; rewrite prune_fold_get.
  destruct (existsb (String.eqb k) (map Session.id sessions)); simpl.
  - now rewrite andb_false_r.
  - rewrite andb_true_r.
    destruct (existsb (String.eqb k) (JSMap.keys (indexedData mem))) eqn:E;
      [reflexivity|].
    destruct (JSMap.get k (indexedData mem)) eqn:G; [|reflexivity].
    assert (I : In k (JSMap.keys (indexedData mem)))
      by (apply in_keys_get; congruence).
    apply existsb_eqb_in in I; congruence.
Qed.

Lemma prune_text_of (sessions : list Session.t) (mem : Mem) (k : string) :
  In k (map Session.id sessions) ->
  FlexSearch.text_of k (index (pruneDeletedSessions sessions mem))
  = FlexSearch.text_of k (index mem).
Proof.
  intros I; unfold pruneDeletedSessions; apply prune_fold_index.
  now apply existsb_eqb_in.
Qed.

(** After pruning a consistent memory, an id that is not in the session
    list is in neither structure. *)
Lemma prune_removes_orphan (sessions : list Session.t) (mem : Mem) (x : string) :
  Consistent mem -> ~ In x (map Session.id sessions) ->
  JSMap.get x (indexedData (pruneDeletedSessions sessions mem)) = None
  /\ ~ In x (FlexSearch.ids (index (pruneDeletedSessions sessions mem))).
Proof.
  intros C N.
  assert (G : JSMap.get x (indexedData (pruneDeletedSessions sessions mem))
              = None).
  { rewrite prune_get.
    destruct (existsb (String.eqb x) (map Session.id sessions)) eqn:E;
      [|reflexivity].
    apply existsb_eqb_in in E; contradiction. }
  split; [exact G|].
  pose proof (Consistent_pruneDeletedSessions sessions mem C) as (_ & _ & S).
  intros I; apply S, in_keys_get in I; contradiction.
Qed.

End PruneFacts.

Section SearchFacts.

Lemma insert_desc_in s l x : In x (insert_desc s l) <-> x = s \/ In x l.
Proof.
  induction l as [|y l IH]; simpl; [intuition|].
  destruct (_ >? _)%Z; simpl; rewrite ?IH; intuition.
Qed.

Lemma sort_desc_in l x : In x (sort_desc l) <-> In x l.
Proof.
  induction l as [|y l IH]; simpl; [tauto|].
  rewrite insert_desc_in, IH; intuition.
Qed.

(** Whatever the index answers, the search effect only ever shows sessions
    of the list it was given. *)
Lemma searchEffect_within_sessions matches searchText sessions index s :
  In s (fst (searchEffect matches searchText sessions index)) -> In s sessions.
Proof.
  unfold searchEffect.
  destruct (negb _); [auto|].
  destruct index as [idx|]; [|auto]; simpl.
  rewrite sort_desc_in, filter_In; tauto.
Qed.

End SearchFacts.

(** C4 as stated fails: with an empty query the effect hands back the list
    it was given, here oldest first, not ordered by [updated] descending. *)
Lemma empty_query_keeps_given_order :
  fst (searchEffect Ex.always "" [Ex.a100; Ex.b200] (Some FlexSearch.create))
  = [Ex.a100; Ex.b200]
  /\ ~ Sorted_desc
       (fst (searchEffect Ex.always "" [Ex.a100; Ex.b200]
               (Some FlexSearch.create))).
Proof.
  split; [reflexivity|].
  simpl; intros S; inversion S as [|? ? _ F]; subst.
  inversion F as [|? ? H _]; subst.
  unfold updated_desc in H; simpl in H; lia.
Qed.

(** C4, amended.  For every session list and every query that is empty or
    made of white space only, the search result is the session list exactly
    as it was given, in the same order (so it is ordered by [updated]
    descending whenever the given list is), and no index lookup is
    performed: the log is empty and the index, present or not, plays no
    part. *)
Theorem blank_query_returns_sessions_as_given
        (matches : string -> string -> bool) (searchText : string)
        (sessions : list Session.t) (index : option FlexSearch.Index) :
  blank searchText = true ->
  searchEffect matches searchText sessions index = (sessions, [])
  /\ (Sorted_desc sessions ->
      Sorted_desc (fst (searchEffect matches searchText sessions index))).
Proof.
  intros B.
  assert (E : searchEffect matches searchText sessions index = (sessions, [])).
  { unfold searchEffect; rewrite (JSFacts.trim_white searchText B); reflexivity. }
  split; [exact E|now rewrite E].
Qed.

Lemma blank_query_returns_sessions_as_given_witness :
  blank "  " = true
  /\ searchEffect Ex.always "  " [Ex.a100; Ex.b200]
       (Some [("a", "Fix bug /work ")])
     = ([Ex.a100; Ex.b200], []).
Proof.
  split; [reflexivity|].
  apply (blank_query_returns_sessions_as_given Ex.always "  "
           [Ex.a100; Ex.b200] (Some [("a", "Fix bug /work ")]) eq_refl).
Defined.

(** C1, at a failing input.  The hook holds records for [a] and for [x];
    the session list is [a] alone, unchanged since it was indexed.  No
    session needs indexing, the cycle completes without fetching anything,
    and [x], which is not in the session list, is still in the record map and
    still registered in the index: the early return skips pruning.  (Search
    results never show [x], because they are drawn from the session
    list.) *)
Theorem orphan_survives_cycle_without_work :
  let sessions := [Ex.a100] in
  let result := refreshEffect Ex.env_ok sessions Ex.warm in
  ~ In "x" (map Session.id sessions)
  /\ JSMap.has "x" (indexedDataRef Ex.warm) = true
  /\ findSessionsNeedingIndex (sort_desc sessions)
       (indexedData (loadCachedIndex (localStorage Ex.warm) (mem_of Ex.warm)))
     = []
  /\ isIndexingRef (fst result) = false
  /\ snd result = [EvSetIndexProgress 100]
  /\ JSMap.get "x" (indexedDataRef (fst result)) = Some Ex.rec_x
  /\ FlexSearch.contain "x" (indexRef (fst result)) = true.
Proof.
  repeat split; try reflexivity.
  simpl; intros [E|[]]; discriminate.
Qed.

Section LoopFacts.

Lemma batch_of_firstn (bs i : nat) (l : list Session.t) :
  batch_of bs i l = firstn bs (skipn (i * bs) l).
Proof.
  unfold batch_of, JS.slice.
  destruct (Nat.le_gt_cases (i * bs + bs) (List.length l)) as [H|H].
  - rewrite Nat.min_l by exact H; f_equal; lia.
  - rewrite Nat.min_r by lia.
    rewrite !firstn_all2; try reflexivity; rewrite length_skipn; lia.
Qed.

Lemma batch_of_length (bs i : nat) (l : list Session.t) :
  List.length (batch_of bs i l) = Nat.min bs (List.length l - i * bs).
Proof. now rewrite batch_of_firstn, length_firstn, length_skipn. Qed.

Lemma batch_of_empty_later (bs i j : nat) (l : list Session.t) :
  1 <= bs -> i <= j -> batch_of bs i l = [] -> batch_of bs j l = [].
Proof.
  intros Hb Hij E; apply length_zero_iff_nil.
  apply (f_equal (@List.length _)) in E; rewrite batch_of_length in *.
  simpl in E; assert (i * bs <= j * bs) by (apply Nat.mul_le_mono_r; exact Hij).
  lia.
Qed.

Lemma firstn_plus {A} (a b : nat) (t : list A) :
  firstn (a + b) t = firstn a t ++ firstn b (skipn a t).
Proof.
  revert t; induction a as [|a IH]; intros t; simpl; [reflexivity|].
  destruct t as [|x t]; simpl; [now rewrite firstn_nil|now rewrite IH].
Qed.

Lemma batches_concat (bs : nat) (l : list Session.t) (left : nat) :
  forall i,
    List.concat (map (fun j => batch_of bs j l) (seq i left))
    = firstn (left * bs) (skipn (i * bs) l).
Proof.
  induction left as [|left IH]; intros i; simpl; [reflexivity|].
  rewrite IH, batch_of_firstn, firstn_plus, skipn_skipn.
  do 3 f_equal; lia.
Qed.

Lemma ceil_div_4_covers (n : nat) : n <= 4 * JS.ceil_div n 4.
Proof.
  unfold JS.ceil_div; simpl Nat.sub.
  pose proof (Nat.div_mod_eq (n + 3) 4) as E.
  pose proof (Nat.mod_upper_bound (n + 3) 4 ltac:(discriminate)); lia.
Qed.

Lemma batch_size_covers (n : nat) : n <= 4 * batch_size n /\ 1 <= batch_size n.
Proof. unfold batch_size; pose proof (ceil_div_4_covers n); lia. Qed.

Lemma batch_size_ceil (n : nat) : 1 <= n -> batch_size n = JS.ceil_div n 4.
Proof.
  intros H; unfold batch_size; pose proof (ceil_div_4_covers n); lia.
Qed.

Lemma chunks_concat (l : list Session.t) :
  List.concat (chunks (batch_size (List.length l)) l) = l.
Proof.
  unfold chunks; rewrite batches_concat; simpl skipn.
  apply firstn_all2; apply batch_size_covers.
Qed.

Lemma last_cons {A} (a d : A) (l : list A) : last (a :: l) d = last l a.
Proof.
  revert a d; induction l as [|b l IH]; intros a d; [reflexivity|].
  change (last (a :: b :: l) d) with (last (b :: l) d); now rewrite !IH.
Qed.

Lemma progress_values_app (l1 l2 : list event) :
  progress_values (l1 ++ l2) = progress_values l1 ++ progress_values l2.
Proof. unfold progress_values; apply flat_map_app. Qed.

Lemma fetched_ids_app (l1 l2 : list event) :
  fetched_ids (l1 ++ l2) = fetched_ids l1 ++ fetched_ids l2.
Proof. unfold fetched_ids; apply flat_map_app. Qed.

Lemma progress_values_fetch (batch : list Session.t) :
  progress_values (fetch_events batch) = [].
Proof. induction batch; simpl; auto. Qed.

Lemma fetched_ids_fetch (batch : list Session.t) :
  fetched_ids (fetch_events batch) = map Session.id batch.
Proof. induction batch as [|s b IH]; simpl; [reflexivity|now f_equal]. Qed.

Lemma progress_values_chunk (i : nat) (batch : list Session.t) :
  progress_values (chunk_events i batch)
  = if (List.length batch =? 0)%nat then [] else [progress_after i].
Proof.
  unfold chunk_events; destruct (_ =? 0)%nat; [reflexivity|].
  rewrite progress_values_app, progress_values_fetch; simpl.
  now destruct (i <? 3)%nat.
Qed.

Lemma fetched_ids_chunk (i : nat) (batch : list Session.t) :
  fetched_ids (chunk_events i batch) = map Session.id batch.
Proof.
  unfold chunk_events; destruct (_ =? 0)%nat eqn:E.
  - apply Nat.eqb_eq, length_zero_iff_nil in E; now subst.
  - rewrite fetched_ids_app, fetched_ids_fetch; simpl.
    destruct (i <? 3)%nat; simpl; now rewrite app_nil_r.
Qed.

Lemma flat_map_nil {A B} (f : A -> list B) (l : list A) :
  (forall a, In a l -> f a = []) -> flat_map f l = [].
Proof.
  induction l as [|a l IH]; simpl; intros H; [reflexivity|].
  rewrite (H a), IH; auto.
Qed.

Lemma fair_nil env : fair env -> completion env [] = [].
Proof. intros F; apply Permutation_nil, F. Qed.

(** The loop runs the fetch continuations of the slices one slice after
    the other and logs each slice's events; stopping at the first empty
    slice loses nothing, because every later slice is empty too. *)
Lemma batch_loop_unrolled env client (bs : nat) (l : list Session.t) :
  fair env -> 1 <= bs ->
  forall left bi mem p,
    let E :=
      flat_map (fun i => chunk_events i (batch_of bs i l)) (seq bi left) in
    batch_loop left bi bs l env client mem p
    = (fold_left (indexSession client)
         (flat_map (fun i => completion env (batch_of bs i l)) (seq bi left))
         mem,
       last (progress_values E) p, E).
Proof.
  intros F Hb; induction left as [|left IH]; intros bi mem p; simpl;
    [reflexivity|].
  destruct (List.length (batch_of bs bi l) =? 0)%nat eqn:E0.
  - apply Nat.eqb_eq, length_zero_iff_nil in E0.
    assert (Z1 : flat_map (fun i => completion env (batch_of bs i l))
                   (seq (S bi) left) = []).
    { apply flat_map_nil; intros j Ij; apply in_seq in Ij.
      rewrite (batch_of_empty_later bs bi j l); auto using fair_nil; lia. }
    assert (Z2 : flat_map (fun i => chunk_events i (batch_of bs i l))
                   (seq (S bi) left) = []).
    { apply flat_map_nil; intros j Ij; apply in_seq in Ij.
      rewrite (batch_of_empty_later bs bi j l); auto; lia. }
    rewrite Z1, Z2, E0, (fair_nil env F); reflexivity.
  - rewrite IH; cbv zeta.
    rewrite fold_left_app; f_equal; [f_equal|].
    + rewrite progress_values_app, progress_values_chunk, E0.
      symmetry; apply last_cons.
    + unfold chunk_events at 2; rewrite E0.
      unfold fetch_events; now rewrite <- app_assoc.
Qed.

End LoopFacts.

Section BuildIndexFacts.

Lemma processed_perm env (l : list Session.t) :
  fair env -> Permutation l (processed env l).
Proof.
  intros F; unfold processed.
  rewrite <- (chunks_concat l) at 1.
  generalize (chunks (batch_size (List.length l)) l) as cs.
  induction cs as [|c cs IH]; simpl; [constructor|].
  apply Permutation_app; [apply F|exact IH].
Qed.

Lemma processed_flat env (l : list Session.t) :
  processed env l
  = flat_map (fun i => completion env (batch_of (batch_size (List.length l)) i l))
      (seq 0 4).
Proof. reflexivity. Qed.

(** A cycle that has work to do and reaches its client: slices are
    indexed in order, then orphans are pruned, then the cache is
    written. *)
Lemma buildIndex_work env sessions h client :
  fair env -> getClient env = Some client -> to_index sessions h <> [] ->
  let mem2 :=
    pruneDeletedSessions sessions
      (fold_left (indexSession client)
         (processed env (to_index sessions h)) (loaded h)) in
  buildIndex env sessions h
  = ({| indexRef := index mem2; indexedDataRef := indexedData mem2;
        isIndexingRef := false; isIndexing := false;
        indexProgress :=
          last (progress_values (cycle_events (to_index sessions h)))
            (indexProgress h);
        localStorage :=
          saveCachedIndex (setItem_ok env) (indexedData mem2)
            (localStorage h) |},
     cycle_events (to_index sessions h) ++ [EvStorageSet]).
Proof.
  intros F G N mem2; unfold buildIndex.
  fold (loaded h); fold (to_index sessions h).
  destruct (List.length (to_index sessions h) =? 0)%nat eqn:E.
  - apply Nat.eqb_eq, length_zero_iff_nil in E; contradiction.
  - rewrite G; fold (batch_size (List.length (to_index sessions h))).
    rewrite (batch_loop_unrolled env client _ _ F
               (proj2 (batch_size_covers _))).
    reflexivity.
Qed.

(** A cycle with nothing to index returns early. *)
Lemma buildIndex_idle env sessions h :
  to_index sessions h = [] ->
  buildIndex env sessions h
  = ({| indexRef := index (loaded h); indexedDataRef := indexedData (loaded h);
        isIndexingRef := false; isIndexing := false;
        indexProgress := 100; localStorage := localStorage h |},
     [EvSetIndexProgress 100]).
Proof.
  intros E; unfold buildIndex.
  fold (loaded h); fold (to_index sessions h); now rewrite E.
Qed.

Lemma fetched_ids_cycle (l : list Session.t) :
  fetched_ids (cycle_events l) = map Session.id l.
Proof.
  transitivity
    (map Session.id (List.concat (chunks (batch_size (List.length l)) l)));
    [|now rewrite chunks_concat].
  unfold cycle_events, chunks.
  generalize (seq 0 4) as idxs.
  induction idxs as [|i idxs IH]; simpl; [reflexivity|].
  now rewrite fetched_ids_app, fetched_ids_chunk, map_app, IH.
Qed.

Lemma updated_desc_trans a b c :
  updated_desc a b -> updated_desc b c -> updated_desc a c.
Proof. unfold updated_desc; lia. Qed.

Lemma insert_desc_sorted s l : Sorted_desc l -> Sorted_desc (insert_desc s l).
Proof.
  unfold Sorted_desc; induction l as [|x l IH]; simpl; intros S.
  - repeat constructor.
  - inversion S as [|? ? Sl Fx]; subst.
    destruct (Z.gtb_spec (Session.updated x) (Session.updated s)) as [G|G].
    + constructor; [auto|].
      apply Forall_forall; intros y I; apply insert_desc_in in I as [->|I].
      * unfold updated_desc; lia.
      * rewrite Forall_forall in Fx; auto.
    + constructor; [exact S|].
      constructor; [unfold updated_desc; lia|].
      eapply Forall_impl; [|exact Fx].
      intros y Hy; unfold updated_desc in *; lia.
Qed.

Lemma sort_desc_sorted l : Sorted_desc (sort_desc l).
Proof.
  induction l as [|x l IH]; simpl; [constructor|now apply insert_desc_sorted].
Qed.

Lemma filter_sorted (f : Session.t -> bool) l :
  Sorted_desc l -> Sorted_desc (filter f l).
Proof.
  unfold Sorted_desc; induction 1 as [|x l S IH Fx]; simpl; [constructor|].
  destruct (f x); [|exact IH].
  constructor; [exact IH|].
  apply Forall_forall; intros y I; apply filter_In in I as [I _].
  rewrite Forall_forall in Fx; auto.
Qed.

Lemma to_index_sorted sessions h : Sorted_desc (to_index sessions h).
Proof. apply filter_sorted, sort_desc_sorted. Qed.

Lemma to_index_in sessions h s :
  In s (to_index sessions h)
  <-> In s sessions /\ needs_index (indexedData (loaded h)) s = true.
Proof.
  unfold to_index, findSessionsNeedingIndex.
  now rewrite filter_In, sort_desc_in.
Qed.

Lemma sort_desc_perm l : Permutation l (sort_desc l).
Proof.
  induction l as [|x l IH]; simpl; [constructor|].
  transitivity (x :: sort_desc l); [now constructor|].
  generalize (sort_desc l) as t; clear.
  induction t as [|y t IH]; simpl; [reflexivity|].
  destruct (_ >? _)%Z; [|reflexivity].
  transitivity (y :: x :: t); [constructor|now constructor].
Qed.

End BuildIndexFacts.
(** C6.  In a cycle that has sessions to index, those sessions are taken
    most recently updated first; they are cut into exactly four chunks of
    [ceil(n/4)] sessions each, the last ones shorter or empty, that together
    make up the whole list; the chunks are indexed strictly in order (fetches
    are issued in that order, the records of a chunk are written before the
    next chunk starts, and pruning comes last).  With two sessions the chunk
    sizes are 1, 1, 0, 0 and the more recent session is in the first
    chunk. *)
Theorem batches_recent_first_in_four_chunks
        (env : Env) (sessions : list Session.t) (h : Hook) (client : Client) :
  fair env -> getClient env = Some client ->
  let toIndex := to_index sessions h in
  let n := List.length toIndex in
  let cs := chunks (batch_size n) toIndex in
  toIndex <> [] ->
  Sorted_desc toIndex
  /\ batch_size n = JS.ceil_div n 4
  /\ List.length cs = 4
  /\ List.concat cs = toIndex
  /\ (forall i, i < 4 ->
        List.length (nth i cs [])
        = Nat.min (JS.ceil_div n 4) (n - i * JS.ceil_div n 4))
  /\ fetched_ids (snd (buildIndex env sessions h)) = map Session.id toIndex
  /\ snd (buildIndex env sessions h)
     = flat_map (fun i => chunk_events i (nth i cs [])) (seq 0 4)
       ++ [EvStorageSet]
  /\ mem_of (fst (buildIndex env sessions h))
     = pruneDeletedSessions sessions
         (fold_left (indexSession client) (flat_map (completion env) cs)
            (loaded h))
  /\ (n = 2 -> map (@List.length Session.t) cs = [1; 1; 0; 0])
  /\ (forall a b, toIndex = [b; a] -> cs = [[b]; [a]; []; []]).
Proof.
  intros F G toIndex n cs N.
  assert (Hn : 1 <= n).
  { subst n; destruct toIndex; [contradiction|simpl; lia]. }
  pose proof (batch_size_ceil n Hn) as Hbs.
  pose proof (buildIndex_work env sessions h client F G N) as W.
  cbv zeta in W; fold toIndex in W.
  split; [apply to_index_sorted|].
  split; [exact Hbs|].
  split; [reflexivity|].
  split; [apply chunks_concat|].
  split.
  { intros i Hi; rewrite <- Hbs.
    assert (E : nth i cs [] = batch_of (batch_size n) i toIndex).
    { do 4 (destruct i as [|i]; [reflexivity|]); lia. }
    rewrite E; apply batch_of_length. }
  split.
  { rewrite W; simpl snd.
    rewrite fetched_ids_app, fetched_ids_cycle; simpl; apply app_nil_r. }
  split; [rewrite W; reflexivity|].
  split.
  { rewrite W; unfold mem_of; simpl.
    fold (processed env toIndex).
    now destruct (pruneDeletedSessions sessions _). }
  split.
  { intros E2; subst cs; rewrite E2.
    destruct toIndex as [|x [|y [|z t]]]; try discriminate; reflexivity. }
  intros a b E; subst cs n; rewrite E; reflexivity.
Qed.

Lemma batches_recent_first_in_four_chunks_witness :
  fair Ex.env_ok
  /\ to_index [Ex.a100; Ex.b200] Ex.fresh = [Ex.b200; Ex.a100]
  /\ chunks (batch_size 2) (to_index [Ex.a100; Ex.b200] Ex.fresh)
     = [[Ex.b200]; [Ex.a100]; []; []]
  /\ fetched_ids (snd (buildIndex Ex.env_ok [Ex.a100; Ex.b200] Ex.fresh))
     = ["b"; "a"].
Proof.
  assert (F : fair Ex.env_ok) by (intros b; apply Permutation_refl).
  assert (N : to_index [Ex.a100; Ex.b200] Ex.fresh <> []) by discriminate.
  pose proof (batches_recent_first_in_four_chunks Ex.env_ok
                [Ex.a100; Ex.b200] Ex.fresh Ex.client_ok F eq_refl N) as T.
  cbv zeta in T.
  split; [exact F|split; [reflexivity|split]].
  - apply (proj2 (proj2 (proj2 (proj2 (proj2 (proj2 (proj2 (proj2 (proj2 T))))))))).
    reflexivity.
  - apply (proj1 (proj2 (proj2 (proj2 (proj2 (proj2 T)))))).
Defined.
Section ProgressFacts.

(** The progress values of the four iterations are the first [k] of 25, 50,
    75, 100, where [k] is the number of non-empty chunks: they never
    decrease, and 100 is reported only when the fourth chunk is not
    empty. *)
Lemma progress_values_cycle (l : list Session.t) :
  exists k,
    k <= 4
    /\ progress_values (cycle_events l) = firstn k [25; 50; 75; 100]%Z
    /\ (k = 4 <-> 3 * batch_size (List.length l) < List.length l)
    /\ (k = 0 -> List.length l = 0).
Proof.
  unfold cycle_events; simpl; rewrite !progress_values_app, app_nil_r.
  rewrite !progress_values_chunk.
  set (bs := batch_size (List.length l)).
  pose proof (batch_size_covers (List.length l)) as [_ Hb]; fold bs in Hb.
  rewrite !Nat.eqb_compare, !batch_of_length.
  assert (P : progress_after 0 = 25%Z /\ progress_after 1 = 50%Z
              /\ progress_after 2 = 75%Z /\ progress_after 3 = 100%Z)
    by (repeat split; reflexivity).
  destruct P as (-> & -> & -> & ->).
  destruct (Nat.compare_spec (Nat.min bs (List.length l - 0 * bs)) 0);
    destruct (Nat.compare_spec (Nat.min bs (List.length l - 1 * bs)) 0);
    destruct (Nat.compare_spec (Nat.min bs (List.length l - 2 * bs)) 0);
    destruct (Nat.compare_spec (Nat.min bs (List.length l - 3 * bs)) 0);
    try lia;
    [exists 0|exists 1|exists 2|exists 3|exists 4];
    (split; [lia|split; [reflexivity|split; lia]]).
Qed.

(** A cycle that indexes [n >= 1] sessions reports 25, 50, ... once per
    non-empty chunk and leaves the progress at the last value reported; that
    value is 100 exactly when [3 * ceil(n/4) < n], which fails for
    [n] = 1, 2, 3, 5, 6 and 9. *)
Lemma progress_of_working_cycle env sessions h client :
  fair env -> getClient env = Some client -> to_index sessions h <> [] ->
  exists k,
    1 <= k <= 4
    /\ progress_values (snd (buildIndex env sessions h))
       = firstn k [25; 50; 75; 100]%Z
    /\ indexProgress (fst (buildIndex env sessions h)) = (25 * Z.of_nat k)%Z
    /\ (k = 4 <-> 3 * batch_size (List.length (to_index sessions h))
                  < List.length (to_index sessions h)).
Proof.
  intros F G N.
  rewrite (buildIndex_work env sessions h client F G N); cbv zeta; simpl.
  destruct (progress_values_cycle (to_index sessions h))
    as (k & Hk & Ev & H4 & H0).
  exists k; rewrite progress_values_app, Ev; simpl; rewrite app_nil_r.
  assert (K1 : 1 <= k).
  { destruct k; [|lia].
    specialize (H0 eq_refl); apply length_zero_iff_nil in H0; contradiction. }
  repeat split; try lia; try tauto.
  do 5 (destruct k as [|k]; [try lia; reflexivity|]); lia.
Qed.

End ProgressFacts.

(** C2, at a failing input.  One session needs indexing: the batch size is
    1, the first chunk holds the session and the second is empty, so the
    loop stops after a single report.  The cycle completes with the progress
    values [25] and the progress state left at 25, not 100. *)
Theorem progress_ends_at_25_for_one_session :
  let result := refreshEffect Ex.env_ok [Ex.a100] Ex.fresh in
  to_index [Ex.a100] Ex.fresh = [Ex.a100]
  /\ chunks (batch_size 1) [Ex.a100] = [[Ex.a100]; []; []; []]
  /\ isIndexingRef (fst result) = false
  /\ isIndexing (fst result) = false
  /\ JSMap.has "a" (indexedDataRef (fst result)) = true
  /\ progress_values (snd result) = [25%Z]
  /\ indexProgress (fst result) = 25%Z.
Proof. repeat split; reflexivity. Qed.

Section BatchFacts.
Import JSMapFacts FlexFacts.
Variable client : Client.

Lemma indexSession_get_other mem s k :
  Session.id s <> k ->
  JSMap.get k (indexedData (indexSession client mem s))
  = JSMap.get k (indexedData mem).
Proof.
  intros N; unfold indexSession.
  destruct (client _ _); simpl; [now apply get_set_neq|].
  destruct (negb _); simpl; [now apply get_set_neq|reflexivity].
Qed.

Lemma indexSession_text_other mem s k :
  Session.id s <> k ->
  FlexSearch.text_of k (index (indexSession client mem s))
  = FlexSearch.text_of k (index mem).
Proof.
  intros N; unfold indexSession.
  destruct (client _ _); simpl.
  - rewrite text_of_add_neq by exact N.
    destruct (JSMap.has _ _); [now apply text_of_remove_neq|reflexivity].
  - destruct (negb _); simpl; [now apply text_of_add_neq|reflexivity].
Qed.

Lemma indexSession_get_self mem s :
  JSMap.get (Session.id s) (indexedData (indexSession client mem s))
  = record_after client s (JSMap.get (Session.id s) (indexedData mem)).
Proof.
  unfold indexSession, record_after, limit, JSMap.has.
  destruct (client _ _); simpl; [apply get_set_eq|].
  destruct (JSMap.get (Session.id s) (indexedData mem)) eqn:G; simpl;
    [exact G|apply get_set_eq].
Qed.

Lemma indexSession_text_self mem s :
  FlexSearch.text_of (Session.id s) (index (indexSession client mem s))
  = text_after client s (JSMap.get (Session.id s) (indexedData mem))
      (FlexSearch.text_of (Session.id s) (index mem)).
Proof.
  unfold indexSession, text_after, limit, JSMap.has.
  destruct (client _ _); simpl; [apply text_of_add_eq|].
  destruct (JSMap.get (Session.id s) (indexedData mem)) eqn:G; simpl;
    [reflexivity|apply text_of_add_eq].
Qed.

(** Over a list of sessions with distinct ids, the entry of an id is
    touched by at most one session, and is what that session alone would
    make of it. *)
Lemma fold_indexSession_entry (L : list Session.t) :
  NoDup (map Session.id L) ->
  forall mem k,
    let mem' := fold_left (indexSession client) L mem in
    match find (has_id k) L with
    | Some s =>
        JSMap.get k (indexedData mem')
        = record_after client s (JSMap.get k (indexedData mem))
        /\ FlexSearch.text_of k (index mem')
           = text_after client s (JSMap.get k (indexedData mem))
               (FlexSearch.text_of k (index mem))
    | None =>
        JSMap.get k (indexedData mem') = JSMap.get k (indexedData mem)
        /\ FlexSearch.text_of k (index mem') = FlexSearch.text_of k (index mem)
    end.
Proof.
  induction L as [|s L IH]; intros ND mem k; simpl; [auto|].
  inversion ND as [|? ? Hn Hd]; subst.
  specialize (IH Hd (indexSession client mem s) k); cbv zeta in IH.
  unfold has_id at 1; destruct (String.eqb_spec (Session.id s) k) as [E|N].
  - assert (F : find (has_id k) L = None).
    { destruct (find (has_id k) L) as [s'|] eqn:F; [|reflexivity].
      apply find_some in F as [I E']; apply String.eqb_eq in E'.
      exfalso; apply Hn; rewrite E, <- E'; now apply in_map. }
    rewrite F in IH; destruct IH as [-> ->]; subst k.
    split; [apply indexSession_get_self|apply indexSession_text_self].
  - rewrite (indexSession_get_other _ _ _ N) in IH.
    rewrite (indexSession_text_other _ _ _ N) in IH; exact IH.
Qed.

Lemma find_has_id_unique (L : list Session.t) s :
  NoDup (map Session.id L) -> In s L ->
  find (has_id (Session.id s)) L = Some s.
Proof.
  induction L as [|x L IH]; simpl; intros ND I; [contradiction|].
  inversion ND as [|? ? Hn Hd]; subst; unfold has_id at 1.
  destruct I as [->|I]; [now rewrite String.eqb_refl|].
  destruct (String.eqb_spec (Session.id x) (Session.id s)) as [E|N];
    [|auto].
  exfalso; apply Hn; rewrite E; now apply in_map.
Qed.

Lemma record_after_some s before : record_after client s before <> None.
Proof.
  unfold record_after; destruct (client _ _); [discriminate|].
  destruct before; discriminate.
Qed.

End BatchFacts.

(** C3 as stated fails in the stale-record case: [a] has a record built at
    timestamp 100, the session now has timestamp 150 and a new title, and its
    fetch fails.  After the batch the old record and the old index text are
    still there; nothing was replaced. *)
Lemma failed_fetch_keeps_stale_record :
  let mem' :=
    fst (indexSessionBatch Ex.in_order [Ex.a150] Ex.client_down
           (mem_of Ex.warm)) in
  JSMap.get "a" (indexedData mem') = Some Ex.rec_a
  /\ FlexSearch.text_of "a" (index mem') = Some (full_text Ex.rec_a)
  /\ JSMap.get "a" (indexedData mem') <> Some (make_indexed Ex.a150 "")
  /\ FlexSearch.text_of "a" (index mem')
     <> Some (degraded_text (make_indexed Ex.a150 "")).
Proof. repeat split; discriminate. Qed.

(** C3, amended.  In a batch of sessions with distinct ids, whatever the
    order in which the fetches settle, every session of the batch ends up
    with a record in the record map, whether or not fetches of the batch
    fail.  A session whose fetch succeeds gets a fresh record with its
    extracted content, and the index holds it exactly when the library keeps
    its title, directory and content.  A session whose fetch fails and that
    had no record gets a record with empty content, and the index holds it
    exactly when the library keeps the text made of its title and directory
    only: with a title and a directory that yield no token the session has a
    record and no index entry.  A session whose fetch fails and that already
    had a record keeps that record and its index text unchanged. *)
Theorem failed_fetch_degraded_or_kept
        (completion : list Session.t -> list Session.t)
        (batch : list Session.t) (client : Client) (mem : Mem) :
  Permutation batch (completion batch) ->
  NoDup (map Session.id batch) ->
  let mem' := fst (indexSessionBatch completion batch client mem) in
  forall s, In s batch ->
    JSMap.has (Session.id s) (indexedData mem') = true
    /\ (forall messages,
          client (Session.id s) limit = Some messages ->
          JSMap.get (Session.id s) (indexedData mem')
          = Some (make_indexed s (extractTextFromMessages messages))
          /\ forall keeps,
               FlexSearch.holds keeps (Session.id s) (index mem')
               = keeps (Session.id s)
                   (full_text
                      (make_indexed s (extractTextFromMessages messages))))
    /\ (client (Session.id s) limit = None ->
        JSMap.get (Session.id s) (indexedData mem) = None ->
        JSMap.get (Session.id s) (indexedData mem')
        = Some (make_indexed s "")
        /\ IndexedSession.content (make_indexed s "") = ""
        /\ forall keeps,
             FlexSearch.holds keeps (Session.id s) (index mem')
             = keeps (Session.id s)
                 (Session.title s ++ " " ++ Session.directory s)%string)
    /\ (client (Session.id s) limit = None ->
        forall r,
          JSMap.get (Session.id s) (indexedData mem) = Some r ->
          JSMap.get (Session.id s) (indexedData mem') = Some r
          /\ FlexSearch.text_of (Session.id s) (index mem')
             = FlexSearch.text_of (Session.id s) (index mem)).
Proof.
  intros P ND mem' s I.
  assert (ND' : NoDup (map Session.id (completion batch)))
    by (eapply Permutation_NoDup; [apply Permutation_map, P|exact ND]).
  assert (I' : In s (completion batch)) by (eapply Permutation_in; eauto).
  pose proof (fold_indexSession_entry client _ ND' mem (Session.id s)) as H.
  rewrite (find_has_id_unique _ _ ND' I') in H; cbv zeta in H.
  destruct H as [Hg Ht]; change (fold_left _ _ _) with mem' in Hg, Ht.
  assert (Hh : JSMap.has (Session.id s) (indexedData mem') = true).
  { unfold JSMap.has; rewrite Hg.
    pose proof (record_after_some client s
                  (JSMap.get (Session.id s) (indexedData mem))) as Hn.
    destruct (record_after _ _ _); congruence. }
  split; [exact Hh|].
  unfold record_after in Hg; unfold text_after in Ht.
  split.
  { intros messages E; rewrite E in Hg, Ht; split; [exact Hg|].
    intros keeps; now apply FlexFacts.holds_text. }
  split.
  - intros E G; rewrite E, G in Hg, Ht; repeat split; [exact Hg|].
    intros keeps; apply FlexFacts.holds_text.
    rewrite Ht; unfold degraded_text; simpl.
    now rewrite !JSFacts.or_else_empty.
  - intros E r G; rewrite E, G in Hg, Ht; auto.
Qed.

Lemma failed_fetch_degraded_or_kept_witness :
  Permutation [Ex.a150; Ex.b200; Ex.e100]
    (Ex.in_order [Ex.a150; Ex.b200; Ex.e100])
  /\ NoDup (map Session.id [Ex.a150; Ex.b200; Ex.e100])
  /\ JSMap.get "b"
       (indexedData
          (fst (indexSessionBatch Ex.in_order [Ex.a150; Ex.b200; Ex.e100]
                  Ex.client_down (mem_of Ex.warm))))
     = Some (make_indexed Ex.b200 "")
  /\ FlexSearch.holds Ex.has_token "b"
       (index
          (fst (indexSessionBatch Ex.in_order [Ex.a150; Ex.b200; Ex.e100]
                  Ex.client_down (mem_of Ex.warm))))
     = true
  /\ JSMap.get "a"
       (indexedData
          (fst (indexSessionBatch Ex.in_order [Ex.a150; Ex.b200; Ex.e100]
                  Ex.client_down (mem_of Ex.warm))))
     = Some Ex.rec_a
  /\ JSMap.has "e"
       (indexedData
          (fst (indexSessionBatch Ex.in_order [Ex.a150; Ex.b200; Ex.e100]
                  Ex.client_down (mem_of Ex.warm))))
     = true
  /\ FlexSearch.holds Ex.has_token "e"
       (index
          (fst (indexSessionBatch Ex.in_order [Ex.a150; Ex.b200; Ex.e100]
                  Ex.client_down (mem_of Ex.warm))))
     = false.
Proof.
  assert (P : Permutation [Ex.a150; Ex.b200; Ex.e100]
                (Ex.in_order [Ex.a150; Ex.b200; Ex.e100]))
    by apply Permutation_refl.
  assert (ND : NoDup (map Session.id [Ex.a150; Ex.b200; Ex.e100])).
  { simpl; repeat constructor; simpl; intuition discriminate. }
  pose proof (failed_fetch_degraded_or_kept Ex.in_order
                [Ex.a150; Ex.b200; Ex.e100]
                Ex.client_down (mem_of Ex.warm) P ND) as T.
  cbv zeta in T.
  destruct (T Ex.b200 (or_intror (or_introl eq_refl)))
    as (_ & _ & Hb & _).
  destruct (Hb eq_refl eq_refl) as (Gb & _ & Kb).
  destruct (T Ex.a150 (or_introl eq_refl)) as (_ & _ & _ & Ha).
  destruct (T Ex.e100 (or_intror (or_intror (or_introl eq_refl))))
    as (He & _ & Ke & _).
  destruct (Ke eq_refl eq_refl) as (_ & _ & Ke').
  split; [exact P|split; [exact ND|split; [exact Gb|split]]].
  { refine (eq_trans (Kb Ex.has_token) _); reflexivity. }
  split; [apply (Ha eq_refl Ex.rec_a eq_refl)|split; [exact He|]].
  refine (eq_trans (Ke' Ex.has_token) _); reflexivity.
Defined.

Section LoadFacts.
Import JSMapFacts FlexFacts.

Lemma fold_load_entry (k : string) (items : list IndexedSession.t) :
  forall mem,
    let mem' := fold_left load_item items mem in
    match find (item_has_id k) (rev items) with
    | Some item =>
        JSMap.get k (indexedData mem') = Some item
        /\ FlexSearch.text_of k (index mem') = Some (full_text item)
    | None =>
        JSMap.get k (indexedData mem') = JSMap.get k (indexedData mem)
        /\ FlexSearch.text_of k (index mem') = FlexSearch.text_of k (index mem)
    end.
Proof.
  induction items as [|it items IH]; intros mem; simpl; [auto|].
  specialize (IH (load_item mem it)); cbv zeta in IH.
  destruct (find (item_has_id k) (rev items)) as [x|] eqn:F.
  - now rewrite (find_app_some _ _ _ _ F).
  - rewrite (find_app_none _ _ _ F); simpl.
    unfold item_has_id at 1.
    destruct IH as [-> ->]; unfold load_item; simpl.
    destruct (String.eqb_spec (IndexedSession.id it) k) as [<-|N].
    + now rewrite get_set_eq, text_of_add_eq.
    + now rewrite get_set_neq, text_of_add_neq.
Qed.

(** Loading the same cache twice changes no entry the second time. *)
Lemma load_entry_idem storage mem k :
  JSMap.get k (indexedData (loadCachedIndex storage (loadCachedIndex storage mem)))
  = JSMap.get k (indexedData (loadCachedIndex storage mem)).
Proof.
  unfold loadCachedIndex.
  destruct storage as [[|c]|]; try reflexivity.
  destruct (negb _); [reflexivity|].
  pose proof (fold_load_entry k (indexedSessions c) mem) as H1.
  pose proof (fold_load_entry k (indexedSessions c)
                (fold_left load_item (indexedSessions c) mem)) as H2.
  cbv zeta in *.
  destruct (find (item_has_id k) (rev (indexedSessions c)));
    destruct H1 as [G1 _], H2 as [G2 _]; congruence.
Qed.




End LoadFacts.
Section CycleFacts.
Import JSMapFacts FlexFacts.


Lemma needs_index_false data s :
  needs_index data s = false
  <-> exists r, JSMap.get (Session.id s) data = Some r
                /\ IndexedSession.updated r = Session.updated s.
Proof.
  unfold needs_index, hashSession.
  destruct (JSMap.get (Session.id s) data) as [r|].
  - rewrite JSFacts.number_to_string_eqb, negb_false_iff, Z.eqb_eq.
    split; [intros E; eauto|intros [r' [[= <-] E]]; auto].
  - split; [discriminate|intros [r [E _]]; discriminate].
Qed.

Lemma needs_index_true data s :
  needs_index data s = true
  <-> JSMap.get (Session.id s) data = None
      \/ exists r, JSMap.get (Session.id s) data = Some r
                   /\ IndexedSession.updated r <> Session.updated s.
Proof.
  unfold needs_index, hashSession.
  destruct (JSMap.get (Session.id s) data) as [r|].
  - rewrite JSFacts.number_to_string_eqb, negb_true_iff, Z.eqb_neq.
    split; [intros E; right; eauto|].
    intros [E|[r' [[= <-] E]]]; [discriminate|auto].
  - split; auto.
Qed.

Lemma buildIndex_unreachable env sessions h :
  to_index sessions h <> [] -> getClient env = None ->
  buildIndex env sessions h
  = ({| indexRef := index (loaded h); indexedDataRef := indexedData (loaded h);
        isIndexingRef := true; isIndexing := true;
        indexProgress := indexProgress h;
        localStorage := localStorage h |}, []).
Proof.
  intros N G; unfold buildIndex.
  fold (loaded h); fold (to_index sessions h).
  destruct (List.length (to_index sessions h) =? 0)%nat eqn:E.
  - apply Nat.eqb_eq, length_zero_iff_nil in E; contradiction.
  - now rewrite G.
Qed.

Lemma batch_loop_fetched_in env client bs (l : list Session.t) k :
  forall left bi mem p,
    In k (fetched_ids (snd (batch_loop left bi bs l env client mem p))) ->
    In k (map Session.id l).
Proof.
  induction left as [|left IH]; intros bi mem p; simpl; [tauto|].
  destruct (List.length (batch_of bs bi l) =? 0)%nat; [simpl; tauto|].
  specialize (IH (S bi)
                (fold_left (indexSession client)
                   (completion env (batch_of bs bi l)) mem)
                (progress_after bi)).
  destruct (batch_loop left _ _ _ _ _ _ _) as [[mem2 p2] ev3]; simpl in *.
  fold (fetch_events (batch_of bs bi l)).
  rewrite fetched_ids_app, fetched_ids_fetch, in_app_iff.
  intros [I|I].
  - apply in_map_iff in I as [s [E I]]; apply in_map_iff; exists s.
    split; [exact E|eapply ListFacts.in_slice, I].
  - apply IH; simpl in I; destruct (bi <? 3)%nat; exact I.
Qed.

(** A cycle fetches only for sessions the change detector selected. *)
Lemma refreshEffect_fetched_selected env sessions h k :
  In k (fetched_ids (snd (refreshEffect env sessions h))) ->
  isIndexingRef h = false
  /\ exists s, In s (to_index sessions h) /\ Session.id s = k.
Proof.
  unfold refreshEffect.
  destruct (List.length sessions =? 0)%nat; [simpl; tauto|].
  destruct (isIndexingRef h); [simpl; tauto|].
  unfold buildIndex; fold (loaded h); fold (to_index sessions h).
  destruct (List.length (to_index sessions h) =? 0)%nat;
    [simpl; tauto|].
  destruct (getClient env) as [client|]; [|simpl; tauto].
  match goal with
  | |- context [batch_loop ?a ?b ?c ?d ?e ?f ?g ?i] =>
      pose proof (batch_loop_fetched_in e f c d k a b g i) as H;
      destruct (batch_loop a b c d e f g i) as [[mem1 p1] evs]
  end.
  simpl in *; rewrite fetched_ids_app; simpl; rewrite app_nil_r.
  intros I; split; [reflexivity|].
  apply H, in_map_iff in I as [s [E I]]; eauto.
Qed.

Lemma mem_of_loaded_eta (m : Mem) :
  {| index := index m; indexedData := indexedData m |} = m.
Proof. now destruct m. Qed.

Lemma NoDup_ids_perm (l l' : list Session.t) :
  Permutation l l' -> NoDup (map Session.id l) -> NoDup (map Session.id l').
Proof.
  intros P; apply Permutation_NoDup, Permutation_map, P.
Qed.

Lemma NoDup_ids_filter (f : Session.t -> bool) (l : list Session.t) :
  NoDup (map Session.id l) -> NoDup (map Session.id (filter f l)).
Proof.
  induction l as [|x l IH]; simpl; intros ND; [constructor|].
  inversion ND as [|? ? Hn Hd]; subst.
  destruct (f x); simpl; [|auto].
  constructor; [|auto].
  intros I; apply Hn; apply in_map_iff in I as [y [E I]].
  apply filter_In in I as [I _]; apply in_map_iff; eauto.
Qed.

Lemma NoDup_ids_processed env sessions h :
  fair env -> NoDup (map Session.id sessions) ->
  NoDup (map Session.id (processed env (to_index sessions h))).
Proof.
  intros F ND.
  apply (NoDup_ids_perm _ _ (processed_perm env _ F)).
  apply NoDup_ids_filter, (NoDup_ids_perm _ _ (sort_desc_perm sessions)), ND.
Qed.

Lemma NoDup_ids_unique (l : list Session.t) s s' :
  NoDup (map Session.id l) -> In s l -> In s' l ->
  Session.id s' = Session.id s -> s' = s.
Proof.
  intros ND I I' E.
  pose proof (find_has_id_unique l s ND I) as F1.
  pose proof (find_has_id_unique l s' ND I') as F2.
  rewrite E in F2; congruence.
Qed.

(** The entry of an id after a cycle that has work and reaches its
    client: what the one selected session with that id makes of it, or
    the loaded entry when no session with that id was selected; provided
    the id is still in the session list. *)
Lemma buildIndex_work_entry env sessions h client k :
  fair env -> getClient env = Some client -> to_index sessions h <> [] ->
  NoDup (map Session.id sessions) -> In k (map Session.id sessions) ->
  let h1 := fst (buildIndex env sessions h) in
  let before := JSMap.get k (indexedData (loaded h)) in
  let text_before := FlexSearch.text_of k (index (loaded h)) in
  match find (has_id k) (to_index sessions h) with
  | Some s =>
      JSMap.get k (indexedDataRef h1) = record_after client s before
      /\ FlexSearch.text_of k (indexRef h1)
         = text_after client s before text_before
  | None =>
      JSMap.get k (indexedDataRef h1) = before
      /\ FlexSearch.text_of k (indexRef h1) = text_before
  end.
Proof.
  intros F G N ND Ik h1 before text_before.
  subst h1; rewrite (buildIndex_work env sessions h client F G N).
  cbv zeta; simpl fst; simpl indexedDataRef; simpl indexRef.
  rewrite prune_get, (prune_text_of _ _ _ Ik).
  rewrite (proj2 (existsb_eqb_in _ _) Ik).
  pose proof (fold_indexSession_entry client _
                (NoDup_ids_processed env sessions h F ND) (loaded h) k) as H.
  cbv zeta in H.
  assert (E : find (has_id k) (processed env (to_index sessions h))
              = find (has_id k) (to_index sessions h)).
  { pose proof (processed_perm env (to_index sessions h) F) as P.
    assert (ND1 : NoDup (map Session.id (to_index sessions h))).
    { apply NoDup_ids_filter,
        (NoDup_ids_perm _ _ (sort_desc_perm sessions)), ND. }
    destruct (find (has_id k) (to_index sessions h)) as [s|] eqn:Fs.
    - apply find_some in Fs as [Is Es]; apply String.eqb_eq in Es; subst k.
      apply find_has_id_unique;
        [now apply NoDup_ids_processed|eapply Permutation_in; eauto].
    - destruct (find (has_id k) (processed env _)) as [s|] eqn:Fp;
        [|reflexivity].
      apply find_some in Fp as [Ip Ep].
      apply (Permutation_in _ (Permutation_sym P)) in Ip.
      now rewrite (find_none _ _ Fs s Ip) in Ep. }
  rewrite E in H; exact H.
Qed.

End CycleFacts.
Section TwoCycles.
Import JSMapFacts.

Lemma reload_same (m : JSMap.t IndexedSession.t) idx :
  Keyed m ->
  indexedData
    (loadCachedIndex (Some (StoredJson (build_cache m)))
       {| index := idx; indexedData := m |}) = m.
Proof.
  intros K; simpl; apply indexedData_fold_load_same; [reflexivity|].
  intros r I; now apply Keyed_values_get.
Qed.

Lemma find_selected sessions h s :
  NoDup (map Session.id sessions) -> In s sessions ->
  find (has_id (Session.id s)) (to_index sessions h)
  = if needs_index (indexedData (loaded h)) s then Some s else None.
Proof.
  intros ND I.
  assert (ND1 : NoDup (map Session.id (to_index sessions h))).
  { apply NoDup_ids_filter, (NoDup_ids_perm _ _ (sort_desc_perm sessions)), ND. }
  destruct (needs_index (indexedData (loaded h)) s) eqn:E.
  - apply find_has_id_unique; [exact ND1|now apply to_index_in].
  - destruct (find _ _) as [s'|] eqn:Fs; [|reflexivity].
    apply find_some in Fs as [Is Es]; apply String.eqb_eq in Es.
    apply to_index_in in Is as [Is En].
    rewrite (NoDup_ids_unique sessions s s' ND I Is Es) in En; congruence.
Qed.

(** After a first cycle that ran to completion, the loaded record of a
    listed session carries the session's timestamp, unless its fetch failed
    over a stale record or the cache write failed. *)
Lemma first_cycle_entry h env1 sessions1 s :
  Consistent (mem_of h) -> fair env1 ->
  NoDup (map Session.id sessions1) -> In s sessions1 ->
  setItem_ok env1 = true ->
  (forall client r,
      getClient env1 = Some client ->
      client (Session.id s) limit = None ->
      JSMap.get (Session.id s) (indexedData (loaded h)) = Some r ->
      IndexedSession.updated r = Session.updated s) ->
  let h1 := fst (refreshEffect env1 sessions1 h) in
  isIndexingRef h1 = false ->
  exists r,
    JSMap.get (Session.id s) (indexedData (loaded h1)) = Some r
    /\ IndexedSession.updated r = Session.updated s.
Proof.
  intros C F ND I W Hfail h1 Run; subst h1.
  unfold refreshEffect in *.
  destruct (List.length sessions1 =? 0)%nat eqn:E0.
  { apply Nat.eqb_eq, length_zero_iff_nil in E0; subst; destruct I. }
  destruct (isIndexingRef h) eqn:Eh; [simpl in Run; congruence|].
  pose proof (Consistent_buildIndex env1 sessions1 h C) as C1.
  pose proof (find_selected sessions1 h s ND I) as Fs.
  assert (D : to_index sessions1 h = [] \/ to_index sessions1 h <> [])
    by (destruct (to_index sessions1 h); [now left|right; discriminate]).
  destruct D as [T|N].
  - (* nothing to index *)
    rewrite (buildIndex_idle env1 sessions1 h T); simpl fst.
    unfold loaded at 1, mem_of; simpl.
    rewrite mem_of_loaded_eta; unfold loaded; rewrite load_entry_idem.
    rewrite T in Fs; simpl in Fs.
    destruct (needs_index _ s) eqn:En; [discriminate|].
    now apply needs_index_false.
  - destruct (getClient env1) as [client|] eqn:G.
    + pose proof (buildIndex_work_entry env1 sessions1 h client
                    (Session.id s) F G N ND (in_map Session.id _ _ I)) as B.
      cbv zeta in B; rewrite Fs in B.
      rewrite (buildIndex_work env1 sessions1 h client F G N) in B, C1 |- *.
      cbv zeta in *.
      set (mem2 := pruneDeletedSessions sessions1 _) in *.
      unfold mem_of in C1; simpl in B, C1 |- *.
      unfold loaded at 1, mem_of, saveCachedIndex; simpl localStorage.
      simpl indexRef; simpl indexedDataRef; rewrite W.
      rewrite reload_same by apply C1.
      destruct (needs_index (indexedData (loaded h)) s) eqn:En.
      * destruct B as [B _]; rewrite B; unfold record_after.
        destruct (client (Session.id s) limit) eqn:Ec; [eauto|].
        destruct (JSMap.get (Session.id s) (indexedData (loaded h)))
          as [r|] eqn:Gr; [|eauto].
        exists r; split; [reflexivity|eapply Hfail; eauto].
      * destruct B as [B _]; rewrite B; now apply needs_index_false.
    + rewrite (buildIndex_unreachable env1 sessions1 h N G) in Run.
      simpl in Run; discriminate.
Qed.

End TwoCycles.

(** C5 as stated fails: [a] has a record built at timestamp 100 and now has
    timestamp 150; the remote service is down.  The first cycle fetches for
    [a], fails and keeps the stale record; in the second cycle the session
    is unchanged (same list, same timestamp) and its messages are fetched
    again. *)
Lemma unchanged_session_fetched_again :
  let h1 := fst (refreshEffect Ex.env_down [Ex.a150] Ex.warm) in
  isIndexingRef h1 = false
  /\ JSMap.get "a" (indexedDataRef h1) = Some Ex.rec_a
  /\ fetched_ids (snd (refreshEffect Ex.env_down [Ex.a150] h1)) = ["a"]
  /\ In (Session.id Ex.a150)
        (fetched_ids (snd (refreshEffect Ex.env_down [Ex.a150] h1))).
Proof. repeat split; try reflexivity. now left. Qed.

(** C5, amended.  The change detector selects exactly the sessions that have
    no record under their id or whose record's timestamp differs from the
    session's [updated], in the order given.  Consequently a session that is
    unchanged between two refresh cycles is not fetched on the second cycle,
    provided that in the first cycle the cache write succeeded and the
    session's fetch did not fail while a stale record of it was held (in that
    case the stale record is kept and the fetch is tried again). *)
Theorem change_detector_and_no_refetch :
  (forall sessions data s,
      In s (findSessionsNeedingIndex sessions data)
      <-> In s sessions
          /\ (JSMap.get (Session.id s) data = None
              \/ exists r, JSMap.get (Session.id s) data = Some r
                           /\ IndexedSession.updated r <> Session.updated s))
  /\ (forall sessions data,
         findSessionsNeedingIndex sessions data
         = filter (needs_index data) sessions)
  /\ (forall h env1 env2 sessions1 sessions2 s,
         Consistent (mem_of h) -> fair env1 ->
         NoDup (map Session.id sessions1) -> In s sessions1 ->
         (forall s', In s' sessions2 -> Session.id s' = Session.id s ->
                     Session.updated s' = Session.updated s) ->
         setItem_ok env1 = true ->
         (forall client r,
             getClient env1 = Some client ->
             client (Session.id s) limit = None ->
             JSMap.get (Session.id s) (indexedData (loaded h)) = Some r ->
             IndexedSession.updated r = Session.updated s) ->
         let h1 := fst (refreshEffect env1 sessions1 h) in
         ~ In (Session.id s)
              (fetched_ids (snd (refreshEffect env2 sessions2 h1)))).
Proof.
  split; [|split; [reflexivity|]].
  - intros sessions data s; unfold findSessionsNeedingIndex.
    now rewrite filter_In, needs_index_true.
  - intros h env1 env2 sessions1 sessions2 s C F ND I U W Hfail h1 Hin.
    apply refreshEffect_fetched_selected in Hin as [Run [s' [Is' Es']]].
    apply to_index_in in Is' as [Is' En].
    destruct (first_cycle_entry h env1 sessions1 s C F ND I W Hfail Run)
      as [r [Gr Ur]].
    fold h1 in Gr.
    assert (Ef : needs_index (indexedData (loaded h1)) s' = false).
    { apply needs_index_false; exists r; rewrite Es'; split; [exact Gr|].
      rewrite Ur; symmetry; now apply U. }
    congruence.
Qed.

Lemma change_detector_and_no_refetch_witness :
  Consistent (mem_of Ex.warm)
  /\ fair Ex.env_ok
  /\ NoDup (map Session.id [Ex.a150; Ex.b200])
  /\ ~ In "a"
       (fetched_ids
          (snd (refreshEffect Ex.env_down [Ex.a150; Ex.b200]
                  (fst (refreshEffect Ex.env_ok [Ex.a150; Ex.b200] Ex.warm))))).
Proof.
  assert (F : fair Ex.env_ok) by (intros b; apply Permutation_refl).
  assert (ND : NoDup (map Session.id [Ex.a150; Ex.b200])).
  { simpl; repeat constructor; simpl; intuition discriminate. }
  split; [exact Consistent_warm|split; [exact F|split; [exact ND|]]].
  apply (proj2 (proj2 change_detector_and_no_refetch) Ex.warm Ex.env_ok
           Ex.env_down [Ex.a150; Ex.b200] [Ex.a150; Ex.b200] Ex.a150
           Consistent_warm F ND (or_introl eq_refl)).
  - intros s' [<-|[<-|[]]] E; [reflexivity|discriminate].
  - reflexivity.
  - intros client r [= <-]; discriminate.
Defined.
Section DegradedFacts.
Import JSMapFacts FlexFacts.





End DegradedFacts.



Section PruningPath.

(** The path that does prune: in a cycle that has sessions to index and
    reaches its client, an id that is not in the session list is in
    neither structure afterwards. *)
Lemma orphan_pruned_when_cycle_indexes env sessions h client x :
  Consistent (mem_of h) -> fair env -> getClient env = Some client ->
  to_index sessions h <> [] -> ~ In x (map Session.id sessions) ->
  let h1 := fst (buildIndex env sessions h) in
  JSMap.get x (indexedDataRef h1) = None
  /\ ~ In x (FlexSearch.ids (indexRef h1)).
Proof.
  intros C F G N Nx h1; subst h1.
  rewrite (buildIndex_work env sessions h client F G N); cbv zeta; simpl.
  apply prune_removes_orphan; [|exact Nx].
  apply Consistent_fold; auto using Consistent_indexSession.
  now apply Consistent_loadCachedIndex.
Qed.

End PruningPath.

(** * Further properties of the hook *)

Section SortFacts.

Lemma insert_desc_same_updated u s t :
  filter (has_updated u) (insert_desc s t)
  = if has_updated u s then s :: filter (has_updated u) t
    else filter (has_updated u) t.
Proof.
  induction t as [|x t IH]; simpl; [reflexivity|].
  destruct (Z.gtb_spec (Session.updated x) (Session.updated s)) as [G|G];
    simpl; [|reflexivity].
  rewrite IH; unfold has_updated.
  destruct (Z.eqb_spec (Session.updated x) u), (Z.eqb_spec (Session.updated s) u);
    try reflexivity; lia.
Qed.

End SortFacts.

(** X1.  The sort used by the hook and by its caller
    ([(a, b) => b.time.updated - a.time.updated]) rearranges the list without
    adding or dropping a session, orders it by [updated] descending, and
    keeps sessions with equal timestamps in the order they had. *)
Theorem sort_desc_is_stable_sort (l : list Session.t) :
  Permutation l (sort_desc l)
  /\ Sorted_desc (sort_desc l)
  /\ List.length (sort_desc l) = List.length l
  /\ forall u, filter (has_updated u) (sort_desc l) = filter (has_updated u) l.
Proof.
  split; [apply sort_desc_perm|split; [apply sort_desc_sorted|split]].
  - symmetry; apply Permutation_length, sort_desc_perm.
  - intros u; induction l as [|x l IH]; simpl; [reflexivity|].
    now rewrite insert_desc_same_updated, IH.
Qed.

Section ColdStart.

Lemma loaded_unusable h : unusable (localStorage h) -> loaded h = mem_of h.
Proof.
  unfold loaded, loadCachedIndex, unusable.
  destruct (localStorage h) as [[|c]|]; try reflexivity.
  intros V; apply Z.eqb_neq in V; now rewrite V.
Qed.

Lemma filter_all {A} (f : A -> bool) (l : list A) :
  (forall a, In a l -> f a = true) -> filter f l = l.
Proof.
  induction l as [|a l IH]; simpl; intros H; [reflexivity|].
  rewrite (H a), IH; auto.
Qed.

End ColdStart.

(** X2.  Cold start.  When the record map is empty and the stored cache is
    absent, unparseable or of another version, the cache load changes
    nothing and every session of the list is selected for indexing, most
    recent first; a cycle that reaches its client then fetches each of them.
    [clearCache] puts the hook in that situation. *)
Theorem cold_start_selects_every_session
        (sessions : list Session.t) (h : Hook) :
  indexedDataRef h = JSMap.empty -> unusable (localStorage h) ->
  loaded h = mem_of h
  /\ to_index sessions h = sort_desc sessions
  /\ (forall env client,
        fair env -> getClient env = Some client -> sessions <> [] ->
        fetched_ids (snd (buildIndex env sessions h))
        = map Session.id (sort_desc sessions))
  /\ (forall h', indexedDataRef (clearCache h') = JSMap.empty
                 /\ indexRef (clearCache h') = FlexSearch.create
                 /\ unusable (localStorage (clearCache h'))
                 /\ indexProgress (clearCache h') = 0%Z).
Proof.
  intros E U.
  pose proof (loaded_unusable h U) as L.
  assert (T : to_index sessions h = sort_desc sessions).
  { unfold to_index, findSessionsNeedingIndex; rewrite L; simpl; rewrite E.
    apply filter_all; reflexivity. }
  split; [exact L|split; [exact T|split]].
  - intros env client F G N.
    assert (N' : to_index sessions h <> []).
    { rewrite T; intros E0; apply N.
      apply Permutation_nil; rewrite <- E0; apply Permutation_sym, sort_desc_perm. }
    rewrite (buildIndex_work env sessions h client F G N'); simpl snd.
    rewrite fetched_ids_app, fetched_ids_cycle, T; simpl; apply app_nil_r.
  - intros h'; repeat split.
Qed.

Lemma cold_start_selects_every_session_witness :
  indexedDataRef Ex.fresh = JSMap.empty
  /\ unusable (localStorage Ex.fresh)
  /\ to_index [Ex.a100; Ex.b200] Ex.fresh = [Ex.b200; Ex.a100].
Proof.
  split; [reflexivity|split; [exact I|]].
  apply (proj1 (proj2 (cold_start_selects_every_session
                         [Ex.a100; Ex.b200] Ex.fresh eq_refl I))).
Defined.

Section PruneAsFilter.

Lemma delete_as_filter (k : string) (m : JSMap.t IndexedSession.t) :
  JSMap.delete k m = filter (fun e => negb (String.eqb (fst e) k)) m.
Proof.
  induction m as [|[k' v] m IH]; simpl; [reflexivity|].
  destruct (String.eqb k' k); simpl; now rewrite IH.
Qed.

Lemma prune_fold_as_filter (ids L : list string) :
  forall mem,
    indexedData (fold_left (prune_step ids) L mem)
    = filter (fun e => survives ids L (fst e)) (indexedData mem)
    /\ index (fold_left (prune_step ids) L mem)
       = filter (fun e => survives ids L (fst e)) (index mem).
Proof.
  induction L as [|i L IH]; intros mem; simpl.
  - unfold survives; simpl; split; symmetry; apply filter_all; reflexivity.
  - destruct (IH (prune_step ids mem i)) as [-> ->]; unfold prune_step.
    destruct (existsb (String.eqb i) ids) eqn:Hi; simpl.
    + split; apply filter_ext; intros e; unfold survives; simpl;
        destruct (String.eqb_spec (fst e) i) as [->|N]; simpl;
        try reflexivity; now rewrite Hi, andb_false_r.
    + rewrite delete_as_filter; unfold FlexSearch.remove.
      rewrite !filter_filter.
      split; apply filter_ext; intros e; unfold survives; simpl;
        destruct (String.eqb_spec (fst e) i) as [->|N]; simpl;
        try reflexivity; now rewrite Hi.
Qed.

End PruneAsFilter.
(** X3.  Pruning keeps exactly the entries whose key is the id of a listed
    session, in their order, in the record map and (when index and record map
    are consistent) in the index; pruning again changes nothing. *)
Theorem prune_keeps_listed_entries (sessions : list Session.t) (mem : Mem) :
  Consistent mem ->
  indexedData (pruneDeletedSessions sessions mem)
  = filter (fun e => listed sessions (fst e)) (indexedData mem)
  /\ index (pruneDeletedSessions sessions mem)
     = filter (fun e => listed sessions (fst e)) (index mem)
  /\ pruneDeletedSessions sessions (pruneDeletedSessions sessions mem)
     = pruneDeletedSessions sessions mem.
Proof.
  intros C.
  assert (P : forall m, Consistent m ->
            indexedData (pruneDeletedSessions sessions m)
            = filter (fun e => listed sessions (fst e)) (indexedData m)
            /\ index (pruneDeletedSessions sessions m)
               = filter (fun e => listed sessions (fst e)) (index m)).
  { intros m (_ & _ & S); unfold pruneDeletedSessions.
    destruct (prune_fold_as_filter (map Session.id sessions)
                (JSMap.keys (indexedData m)) m) as [-> ->].
    split; apply filter_ext_in; intros e I; unfold survives, listed.
    - assert (K : existsb (String.eqb (fst e)) (JSMap.keys (indexedData m))
                  = true)
        by (apply existsb_eqb_in; now apply in_map).
      rewrite K; simpl; now rewrite negb_involutive.
    - assert (K : existsb (String.eqb (fst e)) (JSMap.keys (indexedData m))
                  = true).
      { apply existsb_eqb_in, S; unfold FlexSearch.ids; now apply in_map. }
      rewrite K; simpl; now rewrite negb_involutive. }
  destruct (P mem C) as [Pd Pi].
  split; [exact Pd|split; [exact Pi|]].
  destruct (P _ (Consistent_pruneDeletedSessions sessions mem C)) as [Qd Qi].
  rewrite Pd in Qd; rewrite Pi in Qi.
  rewrite filter_filter in Qd; rewrite filter_filter in Qi.
  destruct (pruneDeletedSessions sessions (pruneDeletedSessions sessions mem))
    as [i2 d2], (pruneDeletedSessions sessions mem) as [i1 d1]; simpl in *.
  subst; f_equal; apply filter_ext; intros e; apply andb_diag.
Qed.

Lemma prune_keeps_listed_entries_witness :
  Consistent (mem_of Ex.warm)
  /\ indexedData (pruneDeletedSessions [Ex.a150] (mem_of Ex.warm))
     = [("a", Ex.rec_a)].
Proof.
  split; [exact Consistent_warm|].
  apply (proj1 (prune_keeps_listed_entries [Ex.a150] (mem_of Ex.warm)
                  Consistent_warm)).
Defined.

(** X4.  Loading a usable cache (current version) overrides the memory: for
    every id, the record afterwards is the last cached record with that id
    and the index text is rebuilt from it; ids the cache does not hold keep
    the record and text they had.  An older cached record therefore replaces
    a newer one in memory. *)
Theorem load_last_cached_record_wins
        (c : CachedIndex) (mem : Mem) (k : string) :
  version c = CACHE_VERSION ->
  let mem' := loadCachedIndex (Some (StoredJson c)) mem in
  match find (item_has_id k) (rev (indexedSessions c)) with
  | Some item =>
      JSMap.get k (indexedData mem') = Some item
      /\ FlexSearch.text_of k (index mem')
         = Some (IndexedSession.title item ++ " "
                 ++ IndexedSession.directory item ++ " "
                 ++ IndexedSession.content item)%string
  | None =>
      JSMap.get k (indexedData mem') = JSMap.get k (indexedData mem)
      /\ FlexSearch.text_of k (index mem') = FlexSearch.text_of k (index mem)
  end.
Proof.
  intros V mem'; subst mem'; unfold loadCachedIndex.
  rewrite V; simpl.
  apply (fold_load_entry k (indexedSessions c) mem).
Qed.

Lemma load_last_cached_record_wins_witness :
  JSMap.get "a"
    (indexedData
       (loadCachedIndex
          (Some (StoredJson (build_cache [("a", Ex.rec_a)])))
          {| index := FlexSearch.create;
             indexedData := [("a", make_indexed Ex.a150 "newer")] |}))
  = Some Ex.rec_a.
Proof.
  apply (load_last_cached_record_wins (build_cache [("a", Ex.rec_a)])
           {| index := FlexSearch.create;
              indexedData := [("a", make_indexed Ex.a150 "newer")] |}
           "a" eq_refl).
Defined.

Section OrderFacts.

Lemma find_has_id_perm (L1 L2 : list Session.t) (k : string) :
  Permutation L1 L2 -> NoDup (map Session.id L1) ->
  find (has_id k) L1 = find (has_id k) L2.
Proof.
  intros P ND.
  pose proof (NoDup_ids_perm _ _ P ND) as ND2.
  destruct (find (has_id k) L1) as [s|] eqn:F1.
  - apply find_some in F1 as [I E]; apply String.eqb_eq in E; subst k.
    symmetry; apply find_has_id_unique; [exact ND2|].
    eapply Permutation_in; eauto.
  - destruct (find (has_id k) L2) as [s|] eqn:F2; [|reflexivity].
    apply find_some in F2 as [I E].
    apply (Permutation_in _ (Permutation_sym P)) in I.
    now rewrite (find_none _ _ F1 s I) in E.
Qed.

End OrderFacts.

(** X5.  The outcome of a batch does not depend on the order in which its
    fetches settle: for sessions with distinct ids, any two settle orders
    leave the same record and the same index text under every id. *)
Theorem batch_outcome_independent_of_settle_order
        (c1 c2 : list Session.t -> list Session.t)
        (batch : list Session.t) (client : Client) (mem : Mem) (k : string) :
  Permutation batch (c1 batch) -> Permutation batch (c2 batch) ->
  NoDup (map Session.id batch) ->
  JSMap.get k (indexedData (fst (indexSessionBatch c1 batch client mem)))
  = JSMap.get k (indexedData (fst (indexSessionBatch c2 batch client mem)))
  /\ FlexSearch.text_of k (index (fst (indexSessionBatch c1 batch client mem)))
     = FlexSearch.text_of k
         (index (fst (indexSessionBatch c2 batch client mem)))
  /\ snd (indexSessionBatch c1 batch client mem)
     = snd (indexSessionBatch c2 batch client mem).
Proof.
  intros P1 P2 ND; simpl.
  pose proof (fold_indexSession_entry client (c1 batch)
                (NoDup_ids_perm _ _ P1 ND) mem k) as H1.
  pose proof (fold_indexSession_entry client (c2 batch)
                (NoDup_ids_perm _ _ P2 ND) mem k) as H2.
  cbv zeta in H1, H2.
  rewrite <- (find_has_id_perm _ _ k P1 ND) in H1.
  rewrite <- (find_has_id_perm _ _ k P2 ND) in H2.
  destruct (find (has_id k) batch); destruct H1 as [-> ->], H2 as [-> ->];
    auto.
Qed.

Lemma batch_outcome_independent_of_settle_order_witness :
  JSMap.get "b"
    (indexedData
       (fst (indexSessionBatch Ex.in_order [Ex.a150; Ex.b200] Ex.client_ok
               (mem_of Ex.warm))))
  = JSMap.get "b"
      (indexedData
         (fst (indexSessionBatch (@rev Session.t) [Ex.a150; Ex.b200]
                 Ex.client_ok (mem_of Ex.warm)))).
Proof.
  apply (batch_outcome_independent_of_settle_order Ex.in_order (@rev Session.t)
           [Ex.a150; Ex.b200] Ex.client_ok (mem_of Ex.warm) "b").
  - apply Permutation_refl.
  - apply Permutation_rev.
  - simpl; repeat constructor; simpl; intuition discriminate.
Defined.
(** X6.  After a refresh cycle that ran to completion on a list with
    distinct ids, every listed session has a record, whether its fetch
    succeeded or failed; and when the cycle had work to do, the keys of the
    record map are exactly the ids of the list, and the index holds entries
    of listed sessions only. *)
Theorem completed_cycle_indexes_every_listed_session
        (env : Env) (sessions : list Session.t) (h : Hook) :
  Consistent (mem_of h) -> fair env -> NoDup (map Session.id sessions) ->
  let h1 := fst (refreshEffect env sessions h) in
  isIndexingRef h1 = false ->
  (forall s, In s sessions ->
     JSMap.has (Session.id s) (indexedDataRef h1) = true)
  /\ (to_index sessions h <> [] ->
      (forall k, In k (JSMap.keys (indexedDataRef h1))
                 <-> In k (map Session.id sessions))
      /\ (forall keeps k,
            FlexSearch.holds keeps k (indexRef h1) = true ->
            In k (map Session.id sessions))).
Proof.
  intros C F ND h1 Run.
  pose proof (Consistent_refreshEffect env sessions h C) as C1; fold h1 in C1.
  assert (Hc : forall keeps k,
             FlexSearch.holds keeps k (indexRef h1) = true ->
             In k (JSMap.keys (indexedDataRef h1))).
  { intros keeps k Hk; destruct C1 as (_ & _ & S).
    apply S; eapply FlexFacts.holds_in_ids, Hk. }
  subst h1; unfold refreshEffect in *.
  destruct (List.length sessions =? 0)%nat eqn:E0.
  { apply Nat.eqb_eq, length_zero_iff_nil in E0; subst sessions.
    split; [intros s []|intros N; contradiction N; reflexivity]. }
  destruct (isIndexingRef h) eqn:Eh; [simpl in Run; congruence|].
  assert (D : to_index sessions h = [] \/ to_index sessions h <> [])
    by (destruct (to_index sessions h); [now left|right; discriminate]).
  destruct D as [T|N].
  - rewrite (buildIndex_idle env sessions h T) in *; simpl fst in *.
    split; [|intros N; contradiction].
    intros s I; simpl indexedDataRef in *.
    pose proof (find_selected sessions h s ND I) as Fs.
    rewrite T in Fs; simpl in Fs.
    destruct (needs_index _ s) eqn:En; [discriminate|].
    apply needs_index_false in En as [r [G _]].
    unfold JSMap.has; now rewrite G.
  - destruct (getClient env) as [client|] eqn:G.
    + assert (Hs : forall s, In s sessions ->
                JSMap.has (Session.id s)
                  (indexedDataRef (fst (buildIndex env sessions h))) = true).
      { intros s I.
        pose proof (buildIndex_work_entry env sessions h client
                      (Session.id s) F G N ND (in_map Session.id _ _ I)) as B.
        cbv zeta in B; rewrite (find_selected sessions h s ND I) in B.
        unfold JSMap.has.
        destruct (needs_index (indexedData (loaded h)) s) eqn:En;
          destruct B as [-> _].
        - pose proof (record_after_some client s
                        (JSMap.get (Session.id s) (indexedData (loaded h)))).
          destruct (record_after _ _ _); congruence.
        - apply needs_index_false in En as [r [-> _]]; reflexivity. }
      split; [exact Hs|].
      intros _.
      assert (K : forall k,
                 In k (JSMap.keys
                         (indexedDataRef (fst (buildIndex env sessions h))))
                 <-> In k (map Session.id sessions)).
      { intros k; split.
        * intros I; apply JSMapFacts.in_keys_get in I.
          rewrite (buildIndex_work env sessions h client F G N) in I.
          cbv zeta in I; simpl in I; rewrite prune_get in I.
          destruct (existsb (String.eqb k) (map Session.id sessions)) eqn:Ek;
            [now apply existsb_eqb_in|congruence].
        * intros I; apply in_map_iff in I as [s [<- I]].
          now apply JSMapFacts.has_in_keys, Hs. }
      split; [exact K|].
      intros keeps k Hk; apply K; eapply Hc, Hk.
    + rewrite (buildIndex_unreachable env sessions h N G) in Run.
      simpl in Run; discriminate.
Qed.

Lemma completed_cycle_indexes_every_listed_session_witness :
  Consistent (mem_of Ex.warm)
  /\ fair Ex.env_down
  /\ NoDup (map Session.id [Ex.a150; Ex.b200])
  /\ JSMap.keys
       (indexedDataRef
          (fst (refreshEffect Ex.env_down [Ex.a150; Ex.b200] Ex.warm)))
     = ["a"; "b"]
  /\ forall k,
       In k (JSMap.keys
               (indexedDataRef
                  (fst (refreshEffect Ex.env_down [Ex.a150; Ex.b200] Ex.warm))))
       <-> In k (map Session.id [Ex.a150; Ex.b200]).
Proof.
  assert (F : fair Ex.env_down) by (intros b; apply Permutation_refl).
  assert (ND : NoDup (map Session.id [Ex.a150; Ex.b200])).
  { simpl; repeat constructor; simpl; intuition discriminate. }
  split; [exact Consistent_warm|split; [exact F|split; [exact ND|split]]];
    [reflexivity|].
  refine (proj1 (proj2 (completed_cycle_indexes_every_listed_session
                          Ex.env_down [Ex.a150; Ex.b200] Ex.warm
                          Consistent_warm F ND eq_refl) _)).
  discriminate.
Defined.

(** X7.  When a cycle has sessions to index and the client cannot be
    obtained, [buildIndex] stops with both indexing flags still set and
    nothing fetched, pruned or saved; from then on every later refresh of
    this hook does nothing at all, whatever list and environment it is
    given. *)
Theorem unreachable_client_blocks_later_cycles
        (env : Env) (sessions : list Session.t) (h : Hook) :
  isIndexingRef h = false -> getClient env = None ->
  to_index sessions h <> [] ->
  let h1 := fst (refreshEffect env sessions h) in
  snd (refreshEffect env sessions h) = []
  /\ isIndexingRef h1 = true /\ isIndexing h1 = true
  /\ indexProgress h1 = indexProgress h
  /\ localStorage h1 = localStorage h
  /\ mem_of h1 = loaded h
  /\ forall cycles, run_cycles cycles h1 = (h1, []).
Proof.
  intros Eh G N h1; subst h1; unfold refreshEffect.
  assert (E0 : (List.length sessions =? 0)%nat = false).
  { apply Nat.eqb_neq; intros E; apply length_zero_iff_nil in E; subst.
    apply N; reflexivity. }
  rewrite E0, Eh, (buildIndex_unreachable env sessions h N G); simpl.
  repeat split; [apply mem_of_loaded_eta|].
  induction cycles as [|[env' sessions'] cycles IH]; simpl; [reflexivity|].
  unfold refreshEffect at 1; simpl.
  destruct (List.length sessions' =? 0)%nat; now rewrite IH.
Qed.

Lemma unreachable_client_blocks_later_cycles_witness :
  to_index [Ex.a100] Ex.fresh <> []
  /\ run_cycles [(Ex.env_ok, [Ex.a100; Ex.b200])]
       (fst (refreshEffect (mkEnv None Ex.in_order true) [Ex.a100] Ex.fresh))
     = (fst (refreshEffect (mkEnv None Ex.in_order true) [Ex.a100] Ex.fresh),
        []).
Proof.
  assert (N : to_index [Ex.a100] Ex.fresh <> []) by discriminate.
  split; [exact N|].
  apply (unreachable_client_blocks_later_cycles
           (mkEnv None Ex.in_order true) [Ex.a100] Ex.fresh eq_refl eq_refl N).
Defined.

Section PauseFacts.

Lemma pauses_app (l1 l2 : list event) :
  pauses (l1 ++ l2) = pauses l1 ++ pauses l2.
Proof. unfold pauses; apply flat_map_app. Qed.

Lemma pauses_fetch (batch : list Session.t) : pauses (fetch_events batch) = [].
Proof. induction batch; simpl; auto. Qed.

Lemma pauses_chunk (i : nat) (batch : list Session.t) :
  pauses (chunk_events i batch)
  = if (List.length batch =? 0)%nat then []
    else if (i <? 3)%nat then [50] else [].
Proof.
  unfold chunk_events; destruct (_ =? 0)%nat; [reflexivity|].
  rewrite pauses_app, pauses_fetch; simpl.
  now destruct (i <? 3)%nat.
Qed.

Lemma pauses_cycle (l : list Session.t) :
  pauses (cycle_events l)
  = repeat 50 (Nat.min (List.length (progress_values (cycle_events l))) 3).
Proof.
  unfold cycle_events; simpl.
  rewrite !pauses_app, !progress_values_app, !app_nil_r.
  rewrite !pauses_chunk, !progress_values_chunk.
  set (bs := batch_size (List.length l)).
  pose proof (batch_size_covers (List.length l)) as [_ Hb]; fold bs in Hb.
  rewrite !Nat.eqb_compare, !batch_of_length.
  destruct (Nat.compare_spec (Nat.min bs (List.length l - 0 * bs)) 0);
    destruct (Nat.compare_spec (Nat.min bs (List.length l - 1 * bs)) 0);
    destruct (Nat.compare_spec (Nat.min bs (List.length l - 2 * bs)) 0);
    destruct (Nat.compare_spec (Nat.min bs (List.length l - 3 * bs)) 0);
    try lia; reflexivity.
Qed.

End PauseFacts.

(** X8.  In a cycle that has work and reaches its client, a pause of 50 ms
    follows each of the first three processed chunks, also when that chunk
    turns out to be the last one with work, and none follows the fourth: the
    number of pauses is the number of progress reports, capped at three. *)
Theorem pause_after_each_of_first_three_chunks
        (env : Env) (sessions : list Session.t) (h : Hook) (client : Client) :
  fair env -> getClient env = Some client -> to_index sessions h <> [] ->
  let log := snd (buildIndex env sessions h) in
  pauses log = repeat 50 (Nat.min (List.length (progress_values log)) 3)
  /\ 1 <= List.length (pauses log) <= 3.
Proof.
  intros F G N log; subst log.
  destruct (progress_of_working_cycle env sessions h client F G N)
    as (k & Hk & Ev & _ & _).
  assert (L : List.length (progress_values (snd (buildIndex env sessions h)))
              = k).
  { rewrite Ev, length_firstn; simpl; lia. }
  assert (P : pauses (snd (buildIndex env sessions h))
              = repeat 50
                  (Nat.min
                     (List.length
                        (progress_values (snd (buildIndex env sessions h)))) 3)).
  { rewrite (buildIndex_work env sessions h client F G N); simpl snd.
    rewrite pauses_app, progress_values_app; simpl.
    rewrite !app_nil_r; apply pauses_cycle. }
  split; [exact P|].
  rewrite P, repeat_length, L; lia.
Qed.

Lemma pause_after_each_of_first_three_chunks_witness :
  fair Ex.env_ok
  /\ pauses (snd (buildIndex Ex.env_ok [Ex.a100] Ex.fresh)) = [50].
Proof.
  assert (F : fair Ex.env_ok) by (intros b; apply Permutation_refl).
  split; [exact F|].
  apply (proj1 (pause_after_each_of_first_three_chunks Ex.env_ok [Ex.a100]
                  Ex.fresh Ex.client_ok F eq_refl ltac:(discriminate))).
Defined.
Section ReloadFacts.
Import JSMapFacts.

Lemma JSMap_ext (m m' : JSMap.t IndexedSession.t) :
  JSMap.wf m -> JSMap.wf m' -> JSMap.keys m = JSMap.keys m' ->
  (forall k, JSMap.get k m = JSMap.get k m') -> m = m'.
Proof.
  unfold JSMap.wf; revert m'.
  induction m as [|[k v] m IH]; intros [|[k' v'] m'] W W' K G;
    simpl in K; try discriminate; [reflexivity|].
  injection K as -> K.
  inversion W as [|? ? Hn Hd]; inversion W' as [|? ? Hn' Hd']; subst.
  pose proof (G k') as Gk; simpl in Gk; rewrite String.eqb_refl in Gk.
  injection Gk as ->; f_equal.
  apply IH; try assumption.
  intros k; specialize (G k); simpl in G.
  destruct (String.eqb_spec k' k) as [->|N]; [|exact G].
  assert (N1 : JSMap.get k m = None).
  { destruct (JSMap.get k m) eqn:E; [|reflexivity].
    exfalso; apply Hn, in_keys_get; congruence. }
  assert (N2 : JSMap.get k m' = None).
  { destruct (JSMap.get k m') eqn:E; [|reflexivity].
    exfalso; apply Hn', in_keys_get; congruence. }
  congruence.
Qed.

Lemma fold_load_keys_present (items : list IndexedSession.t) :
  forall mem,
    (forall item, In item items ->
                  In (IndexedSession.id item) (JSMap.keys (indexedData mem))) ->
    JSMap.keys (indexedData (fold_left load_item items mem))
    = JSMap.keys (indexedData mem).
Proof.
  induction items as [|it items IH]; intros mem H; simpl; [reflexivity|].
  rewrite IH; simpl.
  - apply keys_set_present, H; now left.
  - intros item I; rewrite keys_set_present by (apply H; now left).
    apply H; now right.
Qed.

Lemma fold_load_ids_present (items : list IndexedSession.t) :
  forall mem item,
    In item items ->
    In (IndexedSession.id item)
       (JSMap.keys (indexedData (fold_left load_item items mem))).
Proof.
  intros mem item I; apply in_keys_get.
  pose proof (fold_load_entry (IndexedSession.id item) items mem) as H.
  cbv zeta in H.
  destruct (find (item_has_id (IndexedSession.id item)) (rev items)) eqn:F.
  - destruct H; congruence.
  - apply in_rev in I; pose proof (find_none _ _ F item I) as Hn.
    unfold item_has_id in Hn; now rewrite String.eqb_refl in Hn.
Qed.

(** Loading the same stored value a second time leaves the record map as
    the first load made it. *)
Lemma load_twice_data storage mem :
  Consistent mem ->
  indexedData (loadCachedIndex storage (loadCachedIndex storage mem))
  = indexedData (loadCachedIndex storage mem).
Proof.
  intros C.
  pose proof (Consistent_loadCachedIndex storage mem C) as C1.
  pose proof (Consistent_loadCachedIndex storage _ C1) as C2.
  apply JSMap_ext; [apply C2|apply C1| |intros k; apply load_entry_idem].
  clear C1 C2; destruct storage as [[|c]|]; try reflexivity.
  unfold loadCachedIndex.
  destruct (negb _) eqn:V; [reflexivity|].
  apply fold_load_keys_present; intros item I.
  now apply fold_load_ids_present.
Qed.

Lemma filter_none {A} (f : A -> bool) (l : list A) :
  (forall a, In a l -> f a = false) -> filter f l = [].
Proof.
  induction l as [|a l IH]; simpl; intros H; [reflexivity|].
  rewrite (H a), IH; auto.
Qed.

(** After a completed cycle whose cache write succeeded, the next cache
    load gives back the record map the cycle left. *)
Lemma loaded_after_cycle env sessions h :
  Consistent (mem_of h) -> fair env -> setItem_ok env = true ->
  let h1 := fst (refreshEffect env sessions h) in
  isIndexingRef h = false -> isIndexingRef h1 = false -> sessions <> [] ->
  indexedData (loaded h1) = indexedDataRef h1.
Proof.
  intros C F W h1 Eh Run N0; subst h1; unfold refreshEffect in *.
  destruct (List.length sessions =? 0)%nat eqn:E0.
  { apply Nat.eqb_eq, length_zero_iff_nil in E0; contradiction. }
  rewrite Eh in *.
  pose proof (Consistent_buildIndex env sessions h C) as C1.
  assert (D : to_index sessions h = [] \/ to_index sessions h <> [])
    by (destruct (to_index sessions h); [now left|right; discriminate]).
  destruct D as [T|N].
  - rewrite (buildIndex_idle env sessions h T); simpl fst.
    unfold loaded at 1, mem_of; simpl.
    rewrite mem_of_loaded_eta; unfold loaded; now apply load_twice_data.
  - destruct (getClient env) as [client|] eqn:G.
    + rewrite (buildIndex_work env sessions h client F G N) in C1 |- *.
      cbv zeta in *.
      set (mem2 := pruneDeletedSessions sessions _) in *.
      unfold mem_of in C1; simpl in C1 |- *.
      unfold loaded, mem_of, saveCachedIndex; simpl localStorage.
      simpl indexRef; simpl indexedDataRef; rewrite W.
      apply reload_same, C1.
    + rewrite (buildIndex_unreachable env sessions h N G) in Run.
      simpl in Run; discriminate.
Qed.

End ReloadFacts.

(** X9.  Refreshing twice with the same list: when the first cycle ran to
    completion, its cache write succeeded and no fetch failed over a stale
    record, the second cycle selects no session, fetches nothing, reports
    100, and leaves the record map and the stored cache exactly as the first
    cycle left them. *)
Theorem second_cycle_on_same_list_is_idle
        (env1 env2 : Env) (sessions : list Session.t) (h : Hook) :
  Consistent (mem_of h) -> fair env1 ->
  NoDup (map Session.id sessions) -> sessions <> [] ->
  isIndexingRef h = false -> setItem_ok env1 = true ->
  (forall client s r,
      getClient env1 = Some client -> In s sessions ->
      client (Session.id s) limit = None ->
      JSMap.get (Session.id s) (indexedData (loaded h)) = Some r ->
      IndexedSession.updated r = Session.updated s) ->
  let h1 := fst (refreshEffect env1 sessions h) in
  isIndexingRef h1 = false ->
  let h2 := fst (refreshEffect env2 sessions h1) in
  to_index sessions h1 = []
  /\ snd (refreshEffect env2 sessions h1) = [EvSetIndexProgress 100]
  /\ indexedDataRef h2 = indexedDataRef h1
  /\ localStorage h2 = localStorage h1
  /\ indexProgress h2 = 100%Z
  /\ isIndexingRef h2 = false.
Proof.
  intros C F ND N0 Eh W Hfail h1 Run h2.
  assert (T : to_index sessions h1 = []).
  { unfold to_index, findSessionsNeedingIndex; apply filter_none.
    intros s I; apply (proj1 (sort_desc_in _ _)) in I.
    destruct (first_cycle_entry h env1 sessions s C F ND I W
                (fun client r Gc Ec Gr => Hfail client s r Gc I Ec Gr) Run)
      as [r [G U]].
    apply needs_index_false; eauto. }
  pose proof (loaded_after_cycle env1 sessions h C F W Eh Run N0) as L.
  fold h1 in L.
  subst h2; unfold refreshEffect at 1 2.
  assert (E0 : (List.length sessions =? 0)%nat = false).
  { apply Nat.eqb_neq; intros E; apply length_zero_iff_nil in E; contradiction. }
  fold h1; rewrite E0, Run, (buildIndex_idle env2 sessions h1 T); simpl.
  unfold refreshEffect.
  rewrite E0, Run, (buildIndex_idle env2 sessions h1 T); simpl.
  repeat split; assumption.
Qed.

Lemma second_cycle_on_same_list_is_idle_witness :
  Consistent (mem_of Ex.warm)
  /\ fair Ex.env_ok
  /\ snd (refreshEffect Ex.env_down [Ex.a150; Ex.b200]
            (fst (refreshEffect Ex.env_ok [Ex.a150; Ex.b200] Ex.warm)))
     = [EvSetIndexProgress 100].
Proof.
  assert (F : fair Ex.env_ok) by (intros b; apply Permutation_refl).
  assert (ND : NoDup (map Session.id [Ex.a150; Ex.b200])).
  { simpl; repeat constructor; simpl; intuition discriminate. }
  split; [exact Consistent_warm|split; [exact F|]].
  apply (second_cycle_on_same_list_is_idle Ex.env_ok Ex.env_down
           [Ex.a150; Ex.b200] Ex.warm Consistent_warm F ND
           ltac:(discriminate) eq_refl eq_refl).
  - intros client s r [= <-] _ E; discriminate.
  - reflexivity.
Defined.
Section TrimFacts.

Lemma trimStart_empty (s : string) :
  JS.trimStart s = "" -> blank s = true.
Proof.
  unfold blank; induction s as [|c s IH]; simpl; [reflexivity|].
  destruct (JS.is_white_space c); [exact IH|discriminate].
Qed.

Lemma trimStart_head (s : string) :
  JS.trimStart s = ""
  \/ exists c t, JS.trimStart s = String c t /\ JS.is_white_space c = false.
Proof.
  induction s as [|c s IH]; simpl; [now left|].
  destruct (JS.is_white_space c) eqn:E; [exact IH|right; eauto].
Qed.

Lemma reverse_empty (s : string) : JS.reverse s = "" -> s = "".
Proof.
  unfold JS.reverse; intros E.
  apply (f_equal list_ascii_of_string) in E.
  rewrite list_ascii_of_string_of_list_ascii in E; simpl in E.
  destruct s as [|c s]; [reflexivity|].
  simpl in E; apply (f_equal (@List.length _)) in E.
  rewrite length_app in E; simpl in E; lia.
Qed.

Lemma blank_reverse (s : string) : blank (JS.reverse s) = blank s.
Proof.
  unfold blank, JS.reverse; rewrite list_ascii_of_string_of_list_ascii.
  generalize (list_ascii_of_string s) as l; intros l.
  destruct (forallb JS.is_white_space l) eqn:E.
  - apply forallb_forall; intros c I; apply in_rev in I.
    rewrite forallb_forall in E; auto.
  - destruct (forallb JS.is_white_space (rev l)) eqn:E'; [|reflexivity].
    rewrite <- E; symmetry; apply forallb_forall; intros c I.
    rewrite forallb_forall in E'; apply E'; now apply in_rev in I.
Qed.

(** The test [!searchText.trim()] holds exactly for texts that are empty or
    white space only. *)
Lemma trim_empty_iff_blank (s : string) : JS.trim s = "" <-> blank s = true.
Proof.
  split; [|apply JSFacts.trim_white].
  unfold JS.trim, JS.trimEnd; intros E.
  apply reverse_empty, trimStart_empty in E; rewrite blank_reverse in E.
  destruct (trimStart_head s) as [E0|(c & t & E0 & Hc)].
  - now apply trimStart_empty.
  - rewrite E0 in E; unfold blank in E; simpl in E; now rewrite Hc in E.
Qed.

Lemma sort_desc_sorted_id (l : list Session.t) :
  Sorted_desc l -> sort_desc l = l.
Proof.
  unfold Sorted_desc; induction 1 as [|x l S IH Fx]; simpl; [reflexivity|].
  rewrite IH; destruct l as [|y l]; simpl; [reflexivity|].
  inversion Fx as [|? ? Hy _]; subst; unfold updated_desc in Hy.
  destruct (Z.gtb_spec (Session.updated y) (Session.updated x)); [lia|].
  reflexivity.
Qed.

End TrimFacts.

(** X10.  The search effect consults the index exactly when the query has a
    character that is not white space and an index exists: one lookup, with
    the query as typed and a limit of 100.  Without an index the session list
    is handed back as given. *)
Theorem search_consults_index_iff_query_not_blank
        (matches : string -> string -> bool) (searchText : string)
        (sessions : list Session.t) (index : option FlexSearch.Index) :
  snd (searchEffect matches searchText sessions index)
  = (if blank searchText then []
     else match index with
          | Some _ => [EvIndexSearch searchText 100]
          | None => []
          end)
  /\ (index = None ->
      fst (searchEffect matches searchText sessions index) = sessions)
  /\ (JS.trim searchText = "" <-> blank searchText = true).
Proof.
  split; [|split; [|apply trim_empty_iff_blank]].
  - unfold searchEffect, JS.truthy.
    destruct (blank searchText) eqn:B.
    + now rewrite (JSFacts.trim_white _ B).
    + destruct (String.eqb_spec (JS.trim searchText) "") as [E|N]; simpl.
      * apply trim_empty_iff_blank in E; congruence.
      * now destruct index.
  - intros ->; unfold searchEffect; now destruct (negb _).
Qed.

(** X11.  For a query that is not blank, with an index: the sessions shown
    are exactly the listed sessions whose id the index lookup returned, so
    each of them is registered in the index; they are ordered by [updated]
    descending, in the order of the given list when that list is already so
    ordered; and when the listed ids are distinct there are at most 100 of
    them. *)
Theorem search_results_listed_sorted_bounded
        (matches : string -> string -> bool) (searchText : string)
        (sessions : list Session.t) (idx : FlexSearch.Index) :
  blank searchText = false ->
  let found := FlexSearch.search matches searchText 100 idx in
  let shown := fst (searchEffect matches searchText sessions (Some idx)) in
  (forall s, In s shown <-> In s sessions /\ In (Session.id s) found)
  /\ (forall s, In s shown -> In (Session.id s) (FlexSearch.ids idx))
  /\ Sorted_desc shown
  /\ (Sorted_desc sessions ->
      shown = filter (fun s => existsb (String.eqb (Session.id s)) found)
                sessions)
  /\ (NoDup (map Session.id sessions) -> List.length shown <= 100).
Proof.
  intros B found shown.
  assert (E : shown
              = sort_desc
                  (filter (fun s => existsb (String.eqb (Session.id s)) found)
                     sessions)).
  { subst shown; unfold searchEffect, JS.truthy.
    destruct (String.eqb_spec (JS.trim searchText) "") as [E|N]; simpl;
      [|reflexivity].
    apply trim_empty_iff_blank in E; congruence. }
  assert (M : forall s, In s shown <-> In s sessions /\ In (Session.id s) found).
  { intros s; rewrite E, sort_desc_in, filter_In, existsb_eqb_in; tauto. }
  split; [exact M|split; [|split; [|split]]].
  - intros s I; apply M in I as [_ I].
    eapply FlexFacts.search_ids, I.
  - rewrite E; apply sort_desc_sorted.
  - intros S; rewrite E; apply sort_desc_sorted_id, filter_sorted, S.
  - intros ND.
    assert (L : List.length found <= 100)
      by (subst found; unfold FlexSearch.search; apply firstn_le_length).
    rewrite E, <- (Permutation_length (sort_desc_perm _)).
    rewrite <- (length_map Session.id).
    etransitivity; [|exact L].
    apply NoDup_incl_length; [now apply NoDup_ids_filter|].
    intros k I; apply in_map_iff in I as [s [<- I]].
    apply filter_In in I as [_ I]; now apply existsb_eqb_in.
Qed.

Lemma search_results_listed_sorted_bounded_witness :
  blank "null" = false
  /\ In Ex.b200
        (fst (searchEffect Ex.always "null" [Ex.a100; Ex.b200]
                (Some [("b", "Add feature /work ")])))
  /\ List.length
       (fst (searchEffect Ex.always "null" [Ex.a100; Ex.b200]
               (Some [("b", "Add feature /work ")]))) <= 100.
Proof.
  split; [reflexivity|].
  pose proof (search_results_listed_sorted_bounded Ex.always "null"
                [Ex.a100; Ex.b200] [("b", "Add feature /work ")] eq_refl) as T.
  cbv zeta in T; destruct T as (M & _ & _ & _ & L).
  split.
  - apply M; split; [right; now left|now left].
  - apply L; simpl; repeat constructor; simpl; intuition discriminate.
Defined.

(** X12.  A session whose recent messages hold no text (no messages at all,
    or only tool calls, attachments and empty text parts) has empty
    extracted content; a single text segment is returned as it is, without
    separator. *)
Theorem extract_without_text_is_empty (messages : list Message.t) :
  (forall msg part,
      In msg (JS.slice_last 10 messages) -> In part (Message.parts msg) ->
      is_text_part part = false) ->
  extractTextFromMessages messages = ""
  /\ extractTextFromMessages [] = ""
  /\ forall t, JS.truthy t = true ->
       extractTextFromMessages
         (messages ++ [Message.mk "m" "s" "assistant"
                         [MessagePart.mk "text" (Some t)]])
       = t.
Proof.
  intros H.
  assert (Z : forall l : list Message.t,
             (forall msg part, In msg l -> In part (Message.parts msg) ->
                               is_text_part part = false) ->
             flat_map
               (fun msg => map part_text (filter is_text_part (Message.parts msg)))
               l = []).
  { intros l Hl; apply flat_map_nil; intros msg I.
    rewrite filter_none; [reflexivity|intros p Ip; eapply Hl; eauto]. }
  split; [|split; [reflexivity|]].
  - unfold extractTextFromMessages, MESSAGES_PER_SESSION; now rewrite (Z _ H).
  - intros t Ht; unfold extractTextFromMessages, MESSAGES_PER_SESSION.
    set (last := Message.mk "m" "s" "assistant" [MessagePart.mk "text" (Some t)]).
    assert (S : exists pre, JS.slice_last 10 (messages ++ [last]) = pre ++ [last]
                /\ forall msg, In msg pre -> In msg (JS.slice_last 10 messages)).
    { unfold JS.slice_last; rewrite length_app; simpl.
      rewrite skipn_app.
      replace (List.length messages + 1 - 10 - List.length messages) with 0
        by lia.
      simpl; eexists; split; [reflexivity|].
      intros msg I.
      replace (List.length messages + 1 - 10)
        with ((List.length messages - 10) + (1 - (10 - List.length messages)))
        in I by lia.
      rewrite Nat.add_comm, <- skipn_skipn in I.
      eapply ListFacts.in_skipn, I. }
    destruct S as (pre & -> & Hpre).
    rewrite flat_map_app, (Z pre); simpl.
    + unfold is_text_part; simpl; now rewrite Ht.
    + intros msg part I Ip; eapply H; eauto.
Qed.

Lemma extract_without_text_is_empty_witness :
  extractTextFromMessages [Ex.message [Ex.tool_part; Ex.text_part ""]] = "".
Proof.
  apply (proj1 (extract_without_text_is_empty
                  [Ex.message [Ex.tool_part; Ex.text_part ""]]
                  ltac:(intros msg part [<-|[]] [<-|[<-|[]]]; reflexivity))).
Defined.

(** * The sessions command *)

Section CommandFacts.
Import SessionsCommand.

Lemma step_sorted st a :
  Sorted_desc (sessions st) -> Sorted_desc (sessions (step st a)).
Proof.
  intros S; destruct a as [[message|l]|c d s]; simpl.
  - exact S.
  - apply sort_desc_sorted.
  - unfold handleDelete; destruct c; simpl; [|exact S].
    destruct d; simpl; [exact S|now apply filter_sorted].
Qed.

Lemma run_sorted_from actions :
  forall st, Sorted_desc (sessions st) ->
             Sorted_desc (sessions (fold_left step actions st)).
Proof.
  induction actions as [|a actions IH]; intros st S; simpl; [exact S|].
  now apply IH, step_sorted.
Qed.

End CommandFacts.

(** X13.  The list the sessions command hands to the hook is ordered most
    recent first at all times: initially, and after any sequence of loads
    (successful or failed) and deletions (confirmed or not, successful or
    failed).  Hence whatever the query, blank or not, the list the hook
    shows is ordered by [updated] descending. *)
Theorem command_sessions_always_sorted
        (actions : list SessionsCommand.Action)
        (matches : string -> string -> bool) (searchText : string)
        (index : option FlexSearch.Index) :
  Sorted_desc (SessionsCommand.sessions (SessionsCommand.run actions))
  /\ Sorted_desc
       (fst (searchEffect matches searchText
               (SessionsCommand.sessions (SessionsCommand.run actions)) index)).
Proof.
  assert (S : Sorted_desc (SessionsCommand.sessions (SessionsCommand.run actions))).
  { apply run_sorted_from; constructor. }
  split; [exact S|].
  unfold searchEffect; destruct (negb _); [exact S|].
  destruct index; [apply sort_desc_sorted|exact S].
Qed.

(** X14.  [formatDate] by the age of the timestamp in milliseconds: under
    one minute, and for timestamps in the future, "Just now"; then whole
    minutes from 1 to 59, whole hours from 1 to 23, whole days from 1 to 6,
    each rounded down; from seven days on, the locale date. *)
Theorem formatDate_ranges (toLocaleDateString : Z -> string) (now timestamp : Z) :
  let age := (now - timestamp)%Z in
  let shown := SessionsCommand.formatDate toLocaleDateString now timestamp in
  ((age < 60000)%Z -> shown = "Just now")
  /\ ((60000 <= age < 3600000)%Z ->
      shown = (JS.number_to_string (age / 60000) ++ "m ago")%string
      /\ (1 <= age / 60000 <= 59)%Z)
  /\ ((3600000 <= age < 86400000)%Z ->
      shown = (JS.number_to_string (age / 3600000) ++ "h ago")%string
      /\ (1 <= age / 3600000 <= 23)%Z)
  /\ ((86400000 <= age < 604800000)%Z ->
      shown = (JS.number_to_string (age / 86400000) ++ "d ago")%string
      /\ (1 <= age / 86400000 <= 6)%Z)
  /\ ((604800000 <= age)%Z -> shown = toLocaleDateString timestamp).
Proof.
  intros age shown; subst shown; unfold SessionsCommand.formatDate.
  fold age.
  assert (D1 : forall d, (0 < d)%Z -> forall lo hi,
               (lo * d <= age < hi * d)%Z -> (lo <= age / d < hi)%Z).
  { intros d Hd lo hi [Hl Hh]; split.
    - apply Z.div_le_lower_bound; lia.
    - apply Z.div_lt_upper_bound; lia. }
  assert (D0 : forall d, (0 < d)%Z -> forall hi,
               (age < hi * d)%Z -> (age / d < hi)%Z).
  { intros d Hd hi Hh; apply Z.div_lt_upper_bound; lia. }
  repeat split.
  - intros H; pose proof (D0 60000%Z ltac:(lia) 1%Z ltac:(lia)).
    destruct (Z.ltb_spec (age / 60000) 1); [reflexivity|lia].
  - pose proof (D1 60000%Z ltac:(lia) 1%Z 60%Z ltac:(lia)).
    destruct (Z.ltb_spec (age / 60000) 1); [lia|].
    destruct (Z.ltb_spec (age / 60000) 60); [reflexivity|lia].
  - pose proof (D1 60000%Z ltac:(lia) 1%Z 60%Z ltac:(lia)); lia.
  - pose proof (D1 60000%Z ltac:(lia) 1%Z 60%Z ltac:(lia)); lia.
  - pose proof (D1 60000%Z ltac:(lia) 60%Z 1440%Z ltac:(lia)).
    pose proof (D1 3600000%Z ltac:(lia) 1%Z 24%Z ltac:(lia)).
    destruct (Z.ltb_spec (age / 60000) 1); [lia|].
    destruct (Z.ltb_spec (age / 60000) 60); [lia|].
    destruct (Z.ltb_spec (age / 3600000) 24); [reflexivity|lia].
  - pose proof (D1 3600000%Z ltac:(lia) 1%Z 24%Z ltac:(lia)); lia.
  - pose proof (D1 3600000%Z ltac:(lia) 1%Z 24%Z ltac:(lia)); lia.
  - pose proof (D1 60000%Z ltac:(lia) 1440%Z 10080%Z ltac:(lia)).
    pose proof (D1 3600000%Z ltac:(lia) 24%Z 168%Z ltac:(lia)).
    pose proof (D1 86400000%Z ltac:(lia) 1%Z 7%Z ltac:(lia)).
    destruct (Z.ltb_spec (age / 60000) 1); [lia|].
    destruct (Z.ltb_spec (age / 60000) 60); [lia|].
    destruct (Z.ltb_spec (age / 3600000) 24); [lia|].
    destruct (Z.ltb_spec (age / 86400000) 7); [reflexivity|lia].
  - pose proof (D1 86400000%Z ltac:(lia) 1%Z 7%Z ltac:(lia)); lia.
  - pose proof (D1 86400000%Z ltac:(lia) 1%Z 7%Z ltac:(lia)); lia.
  - intros H.
    assert (10080 <= age / 60000)%Z by (apply Z.div_le_lower_bound; lia).
    assert (168 <= age / 3600000)%Z by (apply Z.div_le_lower_bound; lia).
    assert (7 <= age / 86400000)%Z by (apply Z.div_le_lower_bound; lia).
    destruct (Z.ltb_spec (age / 60000) 1); [lia|].
    destruct (Z.ltb_spec (age / 60000) 60); [lia|].
    destruct (Z.ltb_spec (age / 3600000) 24); [lia|].
    destruct (Z.ltb_spec (age / 86400000) 7); [lia|reflexivity].
Qed.

Lemma formatDate_ranges_witness :
  SessionsCommand.formatDate (fun _ => "1/1/2026") 7260000 0 = "2h ago".
Proof.
  apply (proj1 (proj2 (proj2 (formatDate_ranges (fun _ => "1/1/2026") 7260000 0)))).
  simpl; lia.
Defined.

(** * Recent projects *)

Section ProjectsFacts.
Import Projects.

Lemma other_paths_NoDup (p : string) (ps : list Project) :
  NoDup (map path ps) -> NoDup (map path (filter (other_path p) ps)).
Proof.
  induction ps as [|q ps IH]; simpl; intros ND; [constructor|].
  inversion ND as [|? ? Hn Hd]; subst.
  destruct (other_path p q); simpl; [|auto].
  constructor; [|auto].
  intros I; apply Hn; apply in_map_iff in I as [x [E I]].
  apply filter_In in I as [I _]; apply in_map_iff; eauto.
Qed.

Lemma other_paths_absent (p : string) (ps : list Project) :
  ~ In p (map path (filter (other_path p) ps)).
Proof.
  intros I; apply in_map_iff in I as [q [E I]].
  apply filter_In in I as [_ Hq]; unfold other_path in Hq.
  apply negb_true_iff, String.eqb_neq in Hq; contradiction.
Qed.

Lemma filter_length_le {A} (f : A -> bool) (l : list A) :
  List.length (filter f l) <= List.length l.
Proof.
  induction l as [|a l IH]; simpl; [lia|destruct (f a); simpl; lia].
Qed.

Lemma NoDup_firstn {A} (n : nat) (l : list A) : NoDup l -> NoDup (firstn n l).
Proof.
  revert n; induction l as [|a l IH]; intros [|n] ND; simpl;
    try constructor.
  - inversion ND; subst; intros I; apply ListFacts.in_firstn in I; contradiction.
  - inversion ND; auto.
Qed.

Lemma Tidy_filter (p : string) (ps : list Project) :
  Tidy ps -> Tidy (filter (other_path p) ps).
Proof.
  intros (L & ND & N); split; [|split].
  - pose proof (filter_length_le (other_path p) ps); lia.
  - now apply other_paths_NoDup.
  - rewrite Forall_forall in *; intros q I; apply filter_In in I as [I _]; auto.
Qed.

Lemma added_list (p : string) (now : Z) (ok : bool) (st : State) :
  projects (addProject p now ok st)
  = mkProject p (getProjectName p) now
    :: firstn 19 (filter (other_path p) (projects st)).
Proof. reflexivity. Qed.

Lemma step_Tidy (st : State) (a : Action) :
  Tidy (projects st) -> Tidy (projects (step st a)).
Proof.
  intros T; destruct a as [p now ok|p ok|ok]; unfold step.
  - rewrite added_list.
    pose proof (Tidy_filter p _ T) as (L & ND & N).
    split; [|split].
    + cbn [Datatypes.length]; rewrite length_firstn; unfold MAX_PROJECTS; lia.
    + cbn [map]; constructor.
      * rewrite <- firstn_map; intros I; apply ListFacts.in_firstn in I.
        now apply other_paths_absent in I.
      * rewrite <- firstn_map; now apply NoDup_firstn.
    + constructor; [reflexivity|].
      rewrite Forall_forall in *; intros q I; apply N.
      eapply ListFacts.in_firstn, I.
  - now apply Tidy_filter.
  - repeat constructor.
Qed.

End ProjectsFacts.

(** X15.  Recent projects stay tidy.  Starting from a list that has at most
    20 entries, no path twice and every name derived from its path (the empty
    list in particular), any sequence of [addProject], [removeProject] and
    [clearProjects], with storage writes succeeding or failing, leaves a list
    with the same three properties. *)
Theorem projects_stay_tidy (actions : list Projects.Action) (st : Projects.State) :
  Projects.Tidy (Projects.projects st) ->
  Projects.Tidy (Projects.projects (fold_left Projects.step actions st)).
Proof.
  revert st; induction actions as [|a actions IH]; intros st T; simpl;
    [exact T|].
  now apply IH, step_Tidy.
Qed.

Lemma projects_stay_tidy_witness :
  Projects.Tidy (Projects.projects (Projects.initial None))
  /\ Projects.Tidy
       (Projects.projects
          (fold_left Projects.step
             [Projects.Add "/work/app" 1 true; Projects.Add "/work/lib" 2 false;
              Projects.Add "/work/app" 3 true]
             (Projects.initial None))).
Proof.
  assert (T : Projects.Tidy (Projects.projects (Projects.initial None)))
    by (repeat constructor).
  split; [exact T|].
  apply (projects_stay_tidy
           [Projects.Add "/work/app" 1 true; Projects.Add "/work/lib" 2 false;
            Projects.Add "/work/app" 3 true] (Projects.initial None) T).
Defined.

(** X16.  [addProject] puts the project first, stamped with the current
    time, and drops any earlier entry of the same path; the other projects
    follow in their previous order, and only what lies beyond the twentieth
    place is cut.  So adding a path already listed moves it to the front
    without losing anything, and adding a new path to a full list of 20
    drops the last one. *)
Theorem addProject_moves_to_front
        (p : string) (now : Z) (ok : bool) (st : Projects.State) :
  let before := Projects.projects st in
  let after := Projects.projects (Projects.addProject p now ok st) in
  hd_error after = Some (Projects.mkProject p (Projects.getProjectName p) now)
  /\ tl after = firstn 19 (filter (Projects.other_path p) before)
  /\ (forall q, In q after ->
        q = Projects.mkProject p (Projects.getProjectName p) now
        \/ (In q before /\ Projects.path q <> p))
  /\ (NoDup (map Projects.path before) -> List.length before <= 20 ->
      In p (map Projects.path before) ->
      List.length after = List.length before
      /\ forall q, In q before -> Projects.path q <> p -> In q after)
  /\ (NoDup (map Projects.path before) -> List.length before = 20 ->
      ~ In p (map Projects.path before) ->
      after = Projects.mkProject p (Projects.getProjectName p) now
              :: removelast before).
Proof.
  intros before after; subst after; rewrite added_list; fold before.
  cbn [hd_error tl].
  split; [reflexivity|split; [reflexivity|split; [|split]]].
  - intros q [<-|I]; [now left|right].
    apply ListFacts.in_firstn, filter_In in I as [I Hq].
    split; [exact I|].
    unfold Projects.other_path in Hq.
    now apply negb_true_iff, String.eqb_neq in Hq.
  - intros ND L I.
    assert (Lf : List.length (filter (Projects.other_path p) before)
                 = List.length before - 1).
    { clear L; induction before as [|q ps IH]; simpl in *; [destruct I|].
      inversion ND as [|? ? Hn Hd]; subst.
      unfold Projects.other_path at 1.
      destruct (String.eqb_spec (Projects.path q) p) as [E|N]; simpl.
      - rewrite filter_all; [lia|].
        intros x Ix; unfold Projects.other_path.
        apply negb_true_iff, String.eqb_neq; intros Ex; apply Hn.
        rewrite E, <- Ex; now apply in_map.
      - destruct I as [E|I]; [contradiction|].
        rewrite (IH Hd I).
        destruct ps; [destruct I|simpl; lia]. }
    assert (B1 : 1 <= List.length before)
      by (destruct before; [destruct I|simpl; lia]).
    rewrite firstn_all2 by lia.
    split; [cbn [Datatypes.length]; lia|].
    intros q Iq Nq; right; apply filter_In; split; [exact Iq|].
    unfold Projects.other_path; now apply negb_true_iff, String.eqb_neq.
  - intros ND L N; f_equal.
    rewrite filter_all.
    + now rewrite removelast_firstn_len, L.
    + intros q I; unfold Projects.other_path.
      apply negb_true_iff, String.eqb_neq; intros E; apply N.
      rewrite <- E; now apply in_map.
Qed.

Lemma addProject_moves_to_front_witness :
  map Projects.path
    (Projects.projects
       (Projects.addProject "/work/app" 9 true
          (Projects.mkState
             [Projects.mkProject "/work/lib" "lib" 2;
              Projects.mkProject "/work/app" "app" 1] false None)))
  = ["/work/app"; "/work/lib"]
  /\ List.length
       (Projects.projects
          (Projects.addProject "/work/app" 9 true
             (Projects.mkState
                [Projects.mkProject "/work/lib" "lib" 2;
                 Projects.mkProject "/work/app" "app" 1] false None))) = 2.
Proof.
  split; [reflexivity|].
  apply (proj2 (proj2 (proj2 (addProject_moves_to_front "/work/app" 9 true
           (Projects.mkState
              [Projects.mkProject "/work/lib" "lib" 2;
               Projects.mkProject "/work/app" "app" 1] false None)))));
    simpl.
  - repeat constructor; simpl; intuition discriminate.
  - lia.
  - right; now left.
Defined.
Section SplitFacts.
Import Projects.

Lemma split_not_nil (sep : ascii) (s : string) : split sep s <> [].
Proof.
  destruct s as [|c s]; simpl; [discriminate|].
  destruct (Ascii.eqb c sep); [discriminate|].
  destruct (split sep s); discriminate.
Qed.

Lemma split_app (sep : ascii) (a b : string) :
  split sep (a ++ String sep b) = split sep a ++ split sep b.
Proof.
  induction a as [|c a IH]; simpl.
  - now rewrite Ascii.eqb_refl.
  - destruct (Ascii.eqb c sep); [now rewrite IH|].
    rewrite IH; pose proof (split_not_nil sep a).
    destruct (split sep a); [contradiction|reflexivity].
Qed.

Lemma split_no_slash (s : string) :
  has_slash s = false -> split slash s = [s].
Proof.
  unfold has_slash; induction s as [|c s IH];
    cbn [list_ascii_of_string existsb split]; [reflexivity|].
  intros H; apply orb_false_iff in H as [Hc Hs].
  rewrite Ascii.eqb_sym, Hc, (IH Hs); reflexivity.
Qed.

Lemma nth_last_app {A} (l : list A) (x d : A) :
  nth (List.length (l ++ [x]) - 1) (l ++ [x]) d = x.
Proof.
  rewrite length_app; simpl.
  replace (List.length l + 1 - 1) with (List.length l) by lia.
  now rewrite nth_middle.
Qed.

Lemma split_last (dir name : string) :
  has_slash name = false ->
  let parts := split slash (dir ++ String slash name) in
  nth (List.length parts - 1) parts EmptyString = name.
Proof.
  intros H parts; subst parts.
  rewrite split_app, (split_no_slash name H).
  apply nth_last_app.
Qed.

Lemma nth_pred_last {A} (l : list A) (d : A) :
  nth (List.length l - 1) l d = last l d.
Proof.
  induction l as [|a l IH]; [reflexivity|].
  destruct l as [|b l]; [reflexivity|].
  change (last (a :: b :: l) d) with (last (b :: l) d); rewrite <- IH.
  simpl; now rewrite Nat.sub_0_r.
Qed.

Lemma split_last_no_sep (sep : ascii) (s : string) :
  existsb (Ascii.eqb sep)
    (list_ascii_of_string (last (split sep s) EmptyString)) = false.
Proof.
  induction s as [|c s IH]; simpl; [reflexivity|].
  pose proof (split_not_nil sep s) as N.
  destruct (Ascii.eqb_spec c sep) as [->|Nc].
  - destruct (split sep s) as [|p ps]; [contradiction|exact IH].
  - destruct (split sep s) as [|p ps]; [contradiction|].
    destruct ps as [|q qs]; [|exact IH].
    simpl in *; rewrite IH, orb_false_r.
    destruct (Ascii.eqb_spec sep c); [congruence|reflexivity].
Qed.

End SplitFacts.

(** X17.  [getProjectName] returns what follows the last slash of the path;
    a path without slash is its own name; and when nothing follows the last
    slash (a trailing slash) the whole path is returned, as for the empty
    path. *)
Theorem getProjectName_last_component :
  (forall dir name,
      Projects.has_slash name = false -> name <> EmptyString ->
      Projects.getProjectName (dir ++ "/" ++ name) = name)
  /\ (forall path,
         Projects.has_slash path = false ->
         Projects.getProjectName path = path)
  /\ (forall dir,
         Projects.getProjectName (dir ++ "/") = (dir ++ "/")%string)
  /\ (forall path,
         Projects.getProjectName path = path
         \/ Projects.has_slash (Projects.getProjectName path) = false).
Proof.
  assert (A : forall dir name,
             Projects.has_slash name = false ->
             Projects.getProjectName (dir ++ "/" ++ name)
             = JS.or_else name (dir ++ "/" ++ name)).
  { intros dir name H; unfold Projects.getProjectName.
    change (dir ++ "/" ++ name)%string
      with (dir ++ String Projects.slash name)%string.
    now rewrite (split_last dir name H). }
  split; [|split; [|split]].
  - intros dir name H N; rewrite (A dir name H).
    unfold JS.or_else, JS.truthy; now destruct name.
  - intros path H; unfold Projects.getProjectName.
    rewrite (split_no_slash path H); simpl.
    unfold JS.or_else; now destruct (JS.truthy path).
  - intros dir.
    change (dir ++ "/")%string with (dir ++ "/" ++ EmptyString)%string.
    now rewrite (A dir EmptyString eq_refl).
  - intros path.
    assert (S : forall s,
               Projects.has_slash
                 (nth (List.length (Projects.split Projects.slash s) - 1)
                    (Projects.split Projects.slash s) EmptyString) = false).
    { intros s; rewrite nth_pred_last; apply split_last_no_sep. }
    unfold Projects.getProjectName, JS.or_else.
    destruct (JS.truthy _); [right; apply S|now left].
Qed.

Lemma getProjectName_last_component_witness :
  Projects.getProjectName "/Users/me/work/app" = "app".
Proof.
  apply (proj1 getProjectName_last_component "/Users/me/work" "app");
    [reflexivity|discriminate].
Defined.
(** X18.  What a working cycle does to the records.  In a cycle that has
    sessions to index and reaches its client, over a list with distinct ids:
    a selected session whose fetch succeeds ends with a fresh record built
    from the session and the extracted text, registered at most once, and
    the index holds it exactly when the library keeps its full text (a stale
    record and its text are replaced); a selected session whose fetch fails
    keeps the record and the text it had, or, if it had none, gets the
    degraded record, and the index holds it exactly when the library keeps
    its title and directory; a session that was not selected keeps its record
    and text; and ids that are not listed end with no record and no index
    entry. *)
Theorem working_cycle_effect_on_records
        (env : Env) (sessions : list Session.t) (h : Hook) (client : Client) :
  Consistent (mem_of h) -> fair env -> getClient env = Some client ->
  NoDup (map Session.id sessions) -> to_index sessions h <> [] ->
  let h1 := fst (buildIndex env sessions h) in
  (forall s, In s sessions ->
     let before := JSMap.get (Session.id s) (indexedData (loaded h)) in
     let text_before := FlexSearch.text_of (Session.id s) (index (loaded h)) in
     if needs_index (indexedData (loaded h)) s
     then JSMap.get (Session.id s) (indexedDataRef h1)
          = record_after client s before
     else JSMap.get (Session.id s) (indexedDataRef h1) = before
          /\ FlexSearch.text_of (Session.id s) (indexRef h1) = text_before)
  /\ (forall s messages,
        In s sessions -> needs_index (indexedData (loaded h)) s = true ->
        client (Session.id s) limit = Some messages ->
        JSMap.get (Session.id s) (indexedDataRef h1)
        = Some (make_indexed s (extractTextFromMessages messages))
        /\ count_occ string_dec (FlexSearch.ids (indexRef h1)) (Session.id s)
           <= 1
        /\ forall keeps,
             FlexSearch.holds keeps (Session.id s) (indexRef h1)
             = keeps (Session.id s)
                 (full_text
                    (make_indexed s (extractTextFromMessages messages))))
  /\ (forall s,
        In s sessions -> needs_index (indexedData (loaded h)) s = true ->
        client (Session.id s) limit = None ->
        (JSMap.get (Session.id s) (indexedData (loaded h)) = None ->
         JSMap.get (Session.id s) (indexedDataRef h1)
         = Some (make_indexed s "")
         /\ forall keeps,
              FlexSearch.holds keeps (Session.id s) (indexRef h1)
              = keeps (Session.id s) (degraded_text (make_indexed s "")))
        /\ (forall r,
              JSMap.get (Session.id s) (indexedData (loaded h)) = Some r ->
              JSMap.get (Session.id s) (indexedDataRef h1) = Some r
              /\ FlexSearch.text_of (Session.id s) (indexRef h1)
                 = FlexSearch.text_of (Session.id s) (index (loaded h))))
  /\ (forall k, ~ In k (map Session.id sessions) ->
        JSMap.get k (indexedDataRef h1) = None
        /\ ~ In k (FlexSearch.ids (indexRef h1))).
Proof.
  intros C F G ND N h1.
  assert (P1 : forall s, In s sessions ->
               let before := JSMap.get (Session.id s) (indexedData (loaded h)) in
               let text_before :=
                 FlexSearch.text_of (Session.id s) (index (loaded h)) in
               if needs_index (indexedData (loaded h)) s
               then JSMap.get (Session.id s) (indexedDataRef h1)
                    = record_after client s before
                    /\ FlexSearch.text_of (Session.id s) (indexRef h1)
                       = text_after client s before text_before
               else JSMap.get (Session.id s) (indexedDataRef h1) = before
                    /\ FlexSearch.text_of (Session.id s) (indexRef h1)
                       = text_before).
  { intros s I before text_before.
    pose proof (buildIndex_work_entry env sessions h client (Session.id s)
                  F G N ND (in_map Session.id _ _ I)) as B.
    cbv zeta in B; rewrite (find_selected sessions h s ND I) in B.
    fold h1 in B; now destruct (needs_index _ s). }
  pose proof (Consistent_buildIndex env sessions h C) as C1; fold h1 in C1.
  split; [|split; [|split]].
  - intros s I before text_before.
    specialize (P1 s I); cbv zeta in P1; subst before text_before.
    destruct (needs_index _ s); [apply P1|exact P1].
  - intros s messages I En Ec.
    specialize (P1 s I); cbv zeta in P1; rewrite En in P1.
    destruct P1 as [P1 P2].
    unfold record_after in P1; unfold text_after in P2; rewrite Ec in P1, P2.
    split; [exact P1|split].
    + destruct C1 as (_ & NDi & _).
      now apply (proj1 (NoDup_count_occ string_dec _)).
    + intros keeps; now apply FlexFacts.holds_text.
  - intros s I En Ec.
    specialize (P1 s I); cbv zeta in P1; rewrite En in P1.
    destruct P1 as [P1 P2].
    unfold record_after in P1; unfold text_after in P2; rewrite Ec in P1, P2.
    split.
    + intros G0; rewrite G0 in P1, P2; split; [exact P1|].
      intros keeps; now apply FlexFacts.holds_text.
    + intros r G0; rewrite G0 in P1, P2; auto.
  - intros k Nk.
    apply (orphan_pruned_when_cycle_indexes env sessions h client k C F G N Nk).
Qed.

Lemma working_cycle_effect_on_records_witness :
  Consistent (mem_of Ex.warm)
  /\ fair Ex.env_ok
  /\ JSMap.get "a"
       (indexedDataRef (fst (buildIndex Ex.env_ok [Ex.a150] Ex.warm)))
     = Some (make_indexed Ex.a150 "null pointer exception")
  /\ JSMap.get "x"
       (indexedDataRef (fst (buildIndex Ex.env_ok [Ex.a150] Ex.warm)))
     = None.
Proof.
  assert (F : fair Ex.env_ok) by (intros b; apply Permutation_refl).
  assert (ND : NoDup (map Session.id [Ex.a150]))
    by (simpl; repeat constructor; simpl; tauto).
  pose proof (working_cycle_effect_on_records Ex.env_ok [Ex.a150] Ex.warm
                Ex.client_ok Consistent_warm F eq_refl ND
                ltac:(discriminate)) as T.
  cbv zeta in T; destruct T as (_ & T2 & _ & T3).
  split; [exact Consistent_warm|split; [exact F|split]].
  - apply (T2 Ex.a150 _ (or_introl eq_refl) eq_refl eq_refl).
  - apply T3; simpl; intros [E|[]]; discriminate.
Defined.

(** X19.  The stored cache is rewritten only by a cycle that has sessions to
    index and reaches its client: then, if the write succeeds, it holds
    exactly the records of the final record map at the current version, and
    if the write fails it is left as it was.  A cycle with nothing to index,
    a cycle that cannot reach its client, and a refresh that does not start
    never touch the stored cache. *)
Theorem cache_rewritten_only_by_working_cycle
        (env : Env) (sessions : list Session.t) (h : Hook) :
  fair env ->
  let h1 := fst (refreshEffect env sessions h) in
  let log := snd (refreshEffect env sessions h) in
  (In EvStorageSet log
   <-> sessions <> [] /\ isIndexingRef h = false
       /\ to_index sessions h <> [] /\ getClient env <> None)
  /\ (In EvStorageSet log -> setItem_ok env = true ->
      localStorage h1 = Some (StoredJson (build_cache (indexedDataRef h1)))
      /\ version (build_cache (indexedDataRef h1)) = CACHE_VERSION
      /\ indexedSessions (build_cache (indexedDataRef h1))
         = JSMap.values (indexedDataRef h1))
  /\ (~ In EvStorageSet log \/ setItem_ok env = false ->
      localStorage h1 = localStorage h).
Proof.
  intros F h1 log; subst h1 log; unfold refreshEffect.
  destruct (List.length sessions =? 0)%nat eqn:E0.
  { apply Nat.eqb_eq, length_zero_iff_nil in E0; subst sessions; simpl.
    split; [split; [intros []|intros (N & _); now contradiction N]|].
    split; [intros []|reflexivity]. }
  assert (N0 : sessions <> []) by (intros ->; discriminate).
  destruct (isIndexingRef h) eqn:Eh.
  { simpl.
    split; [split; [intros []|intros (_ & E & _); discriminate]|].
    split; [intros []|reflexivity]. }
  assert (D : to_index sessions h = [] \/ to_index sessions h <> [])
    by (destruct (to_index sessions h); [now left|right; discriminate]).
  destruct D as [T|N].
  - rewrite (buildIndex_idle env sessions h T); simpl.
    assert (X : EvSetIndexProgress 100 = EvStorageSet \/ False -> False)
      by (intros [E|[]]; discriminate).
    split; [split; [intros I; destruct (X I)
                   |intros (_ & _ & N & _); contradiction]|].
    split; [intros I; destruct (X I)|reflexivity].
  - destruct (getClient env) as [client|] eqn:G.
    + rewrite (buildIndex_work env sessions h client F G N); cbv zeta; simpl.
      assert (I : In EvStorageSet
                    (cycle_events (to_index sessions h) ++ [EvStorageSet]))
        by (apply in_or_app; right; now left).
      unfold saveCachedIndex.
      split; [split; [intros _; repeat split; auto; discriminate
                     |intros _; exact I]|].
      split; [intros _ ->; repeat split|].
      intros [Hn| ->]; [contradiction|reflexivity].
    + rewrite (buildIndex_unreachable env sessions h N G); simpl.
      split; [split; [intros []|intros (_ & _ & _ & E); now contradiction E]|].
      split; [intros []|reflexivity].
Qed.

Lemma cache_rewritten_only_by_working_cycle_witness :
  fair Ex.env_ok
  /\ localStorage (fst (refreshEffect Ex.env_ok [Ex.a100] Ex.warm))
     = localStorage Ex.warm.
Proof.
  assert (F : fair Ex.env_ok) by (intros b; apply Permutation_refl).
  split; [exact F|].
  apply (proj2 (proj2 (cache_rewritten_only_by_working_cycle Ex.env_ok
                         [Ex.a100] Ex.warm F))).
  left; simpl; intros [E|[]]; discriminate.
Defined.

(** * Terminal handoff *)

Section EscapeFacts.
Import Handoff.

Lemma escape_cons (a : ascii) (str : string) :
  escapeForAppleScript (String a str)
  = if Ascii.eqb a backslash
    then String backslash (String backslash (escapeForAppleScript str))
    else if Ascii.eqb a quote
         then String backslash (String quote (escapeForAppleScript str))
         else String a (escapeForAppleScript str).
Proof.
  unfold escapeForAppleScript.
  cbn [replace_all].
  destruct (Ascii.eqb_spec a backslash) as [->|Nb].
  - reflexivity.
  - cbn [replace_all].
    destruct (Ascii.eqb_spec a quote) as [->|Nq]; reflexivity.
Qed.

Lemma escape_read (str rest : string) :
  read_literal (escapeForAppleScript str ++ String quote rest)
  = Some (str, rest).
Proof.
  induction str as [|a str IH].
  - reflexivity.
  - rewrite escape_cons.
    destruct (Ascii.eqb_spec a backslash) as [->|Nb].
    + cbn [append read_literal]; rewrite IH; reflexivity.
    + destruct (Ascii.eqb_spec a quote) as [->|Nq].
      * cbn [append read_literal]; rewrite IH; reflexivity.
      * cbn [append read_literal].
        destruct (Ascii.eqb_spec a quote); [contradiction|].
        destruct (Ascii.eqb_spec a backslash); [contradiction|].
        now rewrite IH.
Qed.

End EscapeFacts.

(** X20.  [escapeForAppleScript] makes a text safe inside a double-quoted
    AppleScript literal: reading the escaped text up to the closing quote
    gives back exactly the original text and stops at that closing quote,
    whatever follows; so no quote or backslash of the text can end the
    literal early, and different texts have different escapes.  Characters
    other than the double quote and the backslash, the single quote
    included, are left as they are. *)
Theorem escapeForAppleScript_reads_back (str : string) :
  (forall rest,
      Handoff.read_literal
        (Handoff.escapeForAppleScript str ++ String Handoff.quote rest)
      = Some (str, rest))
  /\ (forall str',
         Handoff.escapeForAppleScript str = Handoff.escapeForAppleScript str' ->
         str = str')
  /\ (forallb Handoff.plain (list_ascii_of_string str) = true ->
      Handoff.escapeForAppleScript str = str)
  /\ String.length str <= String.length (Handoff.escapeForAppleScript str).
Proof.
  split; [intros rest; apply escape_read|split; [|split]].
  - intros str' E.
    pose proof (escape_read str EmptyString) as R1.
    pose proof (escape_read str' EmptyString) as R2.
    rewrite E in R1; congruence.
  - induction str as [|a str IH]; [reflexivity|].
    cbn [list_ascii_of_string forallb]; intros H.
    apply andb_true_iff in H as [Ha Hs]; unfold Handoff.plain in Ha.
    apply andb_true_iff in Ha as [Hq Hb].
    apply negb_true_iff in Hq, Hb.
    rewrite escape_cons, Hb, Hq, (IH Hs); reflexivity.
  - induction str as [|a str IH]; [apply Nat.le_refl|].
    rewrite escape_cons.
    destruct (Ascii.eqb a Handoff.backslash);
      [|destruct (Ascii.eqb a Handoff.quote)]; simpl; lia.
Qed.

Lemma escapeForAppleScript_reads_back_witness :
  Handoff.escapeForAppleScript "it's here" = "it's here".
Proof.
  apply (proj1 (proj2 (proj2 (escapeForAppleScript_reads_back "it's here")))).
  reflexivity.
Defined.

Section TitleFacts.

Lemma substring_0_length (n : nat) (s : string) :
  String.length (substring 0 n s) = Nat.min n (String.length s).
Proof.
  revert n; induction s as [|c s IH]; intros [|n]; simpl; try reflexivity.
  now rewrite IH.
Qed.

Lemma substring_0_all (n : nat) (s : string) :
  String.length s <= n -> substring 0 n s = s.
Proof.
  revert n; induction s as [|c s IH]; intros [|n] H; simpl in *;
    try reflexivity; [lia|].
  rewrite IH; [reflexivity|lia].
Qed.

Lemma substring_0_prefix (n : nat) (s : string) :
  String.prefix (substring 0 n s) s = true.
Proof.
  revert n; induction s as [|c s IH]; intros [|n]; simpl; try reflexivity.
  destruct (ascii_dec c c); [apply IH|contradiction].
Qed.

Lemma length_append (a b : string) :
  String.length (a ++ b) = String.length a + String.length b.
Proof. induction a as [|c a IH]; simpl; [reflexivity|now rewrite IH]. Qed.

End TitleFacts.

(** X21.  The title preview of a first prompt: a text of at most 50
    characters is taken whole; a longer one is cut to its first 50 characters
    followed by three dots; so the preview always starts the way the text
    does and never exceeds 53 characters (62 for the whole title). *)
Theorem titlePreview_bounded (text : string) :
  (String.length text <= 50 -> OpenCodeHook.titlePreview text = text)
  /\ (50 < String.length text ->
      OpenCodeHook.titlePreview text = (substring 0 50 text ++ "...")%string
      /\ String.length (OpenCodeHook.titlePreview text) = 53)
  /\ String.prefix (substring 0 50 text) text = true
  /\ String.length (OpenCodeHook.titlePreview text) <= 53
  /\ String.length (OpenCodeHook.sessionTitle text) <= 62.
Proof.
  assert (L : String.length (OpenCodeHook.titlePreview text) <= 53).
  { unfold OpenCodeHook.titlePreview.
    rewrite length_append, substring_0_length.
    destruct (50 <? String.length text)%nat; cbn [String.length]; lia. }
  split; [|split; [|split; [apply substring_0_prefix|split; [exact L|]]]].
  - intros H; unfold OpenCodeHook.titlePreview.
    rewrite (substring_0_all 50 text H).
    destruct (Nat.ltb_spec 50 (String.length text)); [lia|].
    clear; induction text as [|c t IH]; simpl; [reflexivity|now rewrite IH].
  - intros H; unfold OpenCodeHook.titlePreview.
    destruct (Nat.ltb_spec 50 (String.length text)); [|lia].
    split; [reflexivity|].
    rewrite length_append, substring_0_length; cbn [String.length]; lia.
  - unfold OpenCodeHook.sessionTitle; rewrite length_append.
    cbn [String.length]; lia.
Qed.

Lemma titlePreview_bounded_witness :
  OpenCodeHook.titlePreview "fix the null pointer" = "fix the null pointer".
Proof.
  apply (proj1 (titlePreview_bounded "fix the null pointer")); simpl; lia.
Defined.
